(** * Huffman coding (problem_3.py): a shallow embedding and its properties

    The Python module is embedded function by function.  Python [str] values
    are Rocq [string]s, an [int] count is a [nat], [None] is the [None] of an
    [option], and an exception is an explicit outcome of the result type
    [res].  [queue.PriorityQueue] is the binary heap of the standard
    library's [heapq] module working on a Python list; it is embedded with
    its two sifting loops, because which pairs of entries are compared
    decides whether a [TypeError] is raised. *)

From Stdlib Require Import String Ascii Decimal DecimalNat DecimalString Lia.
From stdpp Require Import base option list gmap strings.

(** ** Outcomes of a Python computation *)

(** [OutOfFuel] is not a Python exception: it marks a loop of the embedding
    that used up its iteration bound.  The bounds given below suffice:
    [huffman_encoding_safe] shows that this outcome never appears. *)
Inductive exn : Set :=
  | TypeError | ValueError | KeyError | AttributeError | IndexError
  | OutOfFuel.

Inductive res (A : Type) : Type :=
  | Ok (a : A)
  | Raise (e : exn).
Arguments Ok {A} a.
Arguments Raise {A} e.

(** [res] is used through stdpp's monad notation: [x ← m; k] runs [m] and
    passes its value on, an exception of [m] skips [k]. *)
Global Instance res_ret : MRet res := λ A a, Ok a.
Global Instance res_bind : MBind res := λ A B k m,
  match m with
  | Ok a => k a
  | Raise e => Raise e
  end.

(** [f <$> m] applies [f] to the value of [m], if there is one. *)
Global Instance res_fmap : FMap res := λ A B f m,
  match m with
  | Ok a => Ok (f a)
  | Raise e => Raise e
  end.

(** ** class HuffmanNode *)

(** The two child attributes are each [None] or a node, independently, as in
    the class: nothing in the type forces them to be set together. *)
Inductive HuffmanNode : Type :=
  | Node (freq : nat) (char : option ascii)
         (left_child right_child : option HuffmanNode).

Definition freq (n : HuffmanNode) : nat :=
  match n with Node f _ _ _ => f end.
Definition char (n : HuffmanNode) : option ascii :=
  match n with Node _ c _ _ => c end.
Definition left_child (n : HuffmanNode) : option HuffmanNode :=
  match n with Node _ _ l _ => l end.
Definition right_child (n : HuffmanNode) : option HuffmanNode :=
  match n with Node _ _ _ r => r end.

(** [HuffmanNode(freq, char)]: the constructor leaves both children unset. *)
Definition new_node (f : nat) (c : option ascii) : HuffmanNode :=
  Node f c None None.

(** ** Queue entries and their comparison *)

(** A queue entry is the tuple [(freq, tag, node)]; the tag is the symbol
    (a one-character [str]) for a leaf, [None] for the dummy entry and
    [str(p3)] for a merged node. *)
Definition entry : Type := nat * option string * HuffmanNode.

Definition e_freq (e : entry) : nat := e.1.1.
Definition e_tag (e : entry) : option string := e.1.2.

(** [str(n)] for a non-negative [int]: the decimal numeral. *)
Definition str (n : nat) : string := NilEmpty.string_of_uint (Nat.to_uint n).

(** The symbol [c] as the one-character string Python iterates over. *)
Definition str1 (c : ascii) : string := String c EmptyString.

(** [a < b] on entries, as Python compares tuples: the first component that
    differs under [==] decides, by [<].  Two [int]s and two [str]s compare;
    [None < 'x'] raises [TypeError].  When weight and tag are both equal the
    nodes are compared: [HuffmanNode] defines neither [__eq__] nor [__lt__],
    two entries of the queue never hold the same object, so [==] is false
    and [<] raises [TypeError].  (That the objects are different is checked
    on the run with identities, [huffman_encoding_at] below.) *)
Definition tuple_lt (a b : entry) : res bool :=
  if decide (e_freq a = e_freq b) then
    match e_tag a, e_tag b with
    | Some s, Some t =>
        if decide (s = t) then Raise TypeError else Ok (String.ltb s t)
    | _, _ => Raise TypeError
    end
  else Ok (bool_decide (e_freq a < e_freq b)).

(** ** Python list indexing *)

Definition getitem {A : Type} (l : list A) (i : nat) : res A :=
  match l !! i with
  | Some x => Ok x
  | None => Raise IndexError
  end.

Definition setitem {A : Type} (l : list A) (i : nat) (x : A) : res (list A) :=
  if decide (i < length l) then Ok (<[i:=x]> l) else Raise IndexError.

(** ** heapq, the heap behind queue.PriorityQueue *)

Module heapq.
Section heap.
(** The module works on a list of any items that have a [<]; [lt] is that
    comparison, exceptions included. *)
Context {A : Type} (lt : A → A → res bool).

(** The [while pos > startpos] loop of [_siftdown].  Each round moves
    [pos] to its parent position, so [pos] rounds are enough. *)
Fixpoint siftdown_loop (fuel : nat) (heap : list A)
    (startpos pos : nat) (newitem : A) : res (list A) :=
  if decide (startpos < pos) then
    match fuel with
    | 0 => Raise OutOfFuel
    | S fuel' =>
        let parentpos := Nat.shiftr (pos - 1) 1 in
        parent ← getitem heap parentpos;
        b ← lt newitem parent;
        if b : bool then
          heap ← setitem heap pos parent;
          siftdown_loop fuel' heap startpos parentpos newitem
        else setitem heap pos newitem
    end
  else setitem heap pos newitem.

Definition _siftdown (heap : list A) (startpos pos : nat) : res (list A) :=
  newitem ← getitem heap pos;
  siftdown_loop pos heap startpos pos newitem.

(** The [while childpos < endpos] loop of [_siftup]; it returns the list
    and the position of the hole left at the bottom. *)
Fixpoint siftup_loop (fuel : nat) (heap : list A) (endpos pos : nat)
    : res (list A * nat) :=
  let childpos := 2 * pos + 1 in
  if decide (childpos < endpos) then
    match fuel with
    | 0 => Raise OutOfFuel
    | S fuel' =>
        let rightpos := childpos + 1 in
        childpos ←
          (if decide (rightpos < endpos) then
             c ← getitem heap childpos;
             r ← getitem heap rightpos;
             b ← lt c r;
             Ok (if b : bool then childpos else rightpos)
           else Ok childpos);
        c ← getitem heap childpos;
        heap ← setitem heap pos c;
        siftup_loop fuel' heap endpos childpos
    end
  else Ok (heap, pos).

Definition _siftup (heap : list A) (pos : nat) : res (list A) :=
  let endpos := length heap in
  let startpos := pos in
  newitem ← getitem heap pos;
  '(heap, pos) ← siftup_loop endpos heap endpos pos;
  heap ← setitem heap pos newitem;
  _siftdown heap startpos pos.

Definition heappush (heap : list A) (item : A) : res (list A) :=
  let heap := heap ++ [item] in
  _siftdown heap 0 (length heap - 1).

(** [heappop] returns the smallest item and the list left. *)
Definition heappop (heap : list A) : res (A * list A) :=
  match reverse heap with
  | [] => Raise IndexError
  | lastelt :: rest =>
      let heap := reverse rest in
      match heap with
      | [] => Ok (lastelt, heap)
      | returnitem :: _ =>
          heap ← setitem heap 0 lastelt;
          heap ← _siftup heap 0;
          Ok (returnitem, heap)
      end
  end.
End heap.
End heapq.

(** ** map_frequency *)

(** The [frequencies] dict keeps its keys in insertion order, and
    [frequencies.items()] is walked in that order, so it is an association
    list: a known key is updated in place, a new key goes to the end. *)
Fixpoint dict_incr (frequencies : list (ascii * nat)) (c : ascii)
    : list (ascii * nat) :=
  match frequencies with
  | [] => [(c, 1)]
  | (k, v) :: rest =>
      if decide (k = c) then (k, v + 1) :: rest
      else (k, v) :: dict_incr rest c
  end.

(** The counting loop [for char in data] (the unused [total] is left out). *)
Fixpoint count_chars (data : string) (frequencies : list (ascii * nat))
    : list (ascii * nat) :=
  match data with
  | EmptyString => frequencies
  | String c rest => count_chars rest (dict_incr frequencies c)
  end.

Definition leaf_entry (cf : ascii * nat) : entry :=
  (cf.2, Some (str1 cf.1), new_node cf.2 (Some cf.1)).

Definition dummy_entry : entry := (0, None, new_node 0 None).

Definition map_frequency (data : string) : list entry :=
  match data with
  | EmptyString => []
  | _ =>
      let frequencies := count_chars data [] in
      let map :=
        if decide (length frequencies = 1) then [dummy_entry] else [] in
      map ++ (leaf_entry <$> frequencies)
  end.

(** ** build_tree *)

(** [for f in frequencies: queue.put(f)] *)
Fixpoint put_all (queue : list entry) (frequencies : list entry)
    : res (list entry) :=
  match frequencies with
  | [] => Ok queue
  | f :: rest => queue ← heapq.heappush tuple_lt queue f; put_all queue rest
  end.

(** [while queue.qsize() > 1]: each round takes two entries and puts one
    back, so [qsize()] rounds are enough. *)
Fixpoint merge_loop (fuel : nat) (queue : list entry) (p3 : nat)
    : res (list entry) :=
  if decide (1 < length queue) then
    match fuel with
    | 0 => Raise OutOfFuel
    | S fuel' =>
        '(lt_freq, lt_char, lt_node, queue) ← heapq.heappop tuple_lt queue;
        '(rt_freq, rt_char, rt_node, queue) ← heapq.heappop tuple_lt queue;
        let p_freq := lt_freq + rt_freq in
        let parent := Node p_freq None (Some lt_node) (Some rt_node) in
        queue ← heapq.heappush tuple_lt queue (p_freq, Some (str p3), parent);
        merge_loop fuel' queue (p3 + 1)
    end
  else Ok queue.

(** The last [queue.get()] finds exactly one entry; on an empty queue Python
    would block, which the [IndexError] of [heappop] stands for here. *)
Definition build_tree (frequencies : list entry) : res (option HuffmanNode) :=
  if decide (length frequencies = 0) then Ok None
  else
    queue ← put_all [] frequencies;
    queue ← merge_loop (length queue) queue 0;
    '(root, _) ← heapq.heappop tuple_lt queue;
    Ok (Some root.2).

(** ** map_codes *)

(** The dict [map] is only written and looked up by key, so it is a finite
    map; its keys are [node.char] values, [None] included. *)
Fixpoint map_codes (node : HuffmanNode) (code : string)
    (map : gmap (option ascii) string) : gmap (option ascii) string :=
  match node with
  | Node _ c l r =>
      let map :=
        match l with
        | Some l' => map_codes l' (code +:+ "0") map
        | None => <[c:=code]> map
        end in
      match r with
      | Some r' => map_codes r' (code +:+ "1") map
      | None => <[c:=code]> map
      end
  end.

(** ** huffman_encoding *)

(** The argument values the module's own driver passes: a [str], [None],
    a [bool] and the empty dict. *)
Inductive pyval : Type :=
  | PStr (s : string)
  | PNone
  | PBool (b : bool)
  | PEmptyDict.
Coercion PStr : string >-> pyval.

(** [bool(data)] *)
Definition truthy (data : pyval) : bool :=
  match data with
  | PStr s => if decide (s = "") then false else true
  | PNone => false
  | PBool b => b
  | PEmptyDict => false
  end.

(** [for char in data: encoding += code_mappings[char]] *)
Fixpoint encode_chars (data : string)
    (code_mappings : gmap (option ascii) string) (encoding : string)
    : res string :=
  match data with
  | EmptyString => Ok encoding
  | String c rest =>
      match code_mappings !! Some c with
      | Some code => encode_chars rest code_mappings (encoding +:+ code)
      | None => Raise KeyError
      end
  end.

(** The helper calls a run of [huffman_encoding] makes, in order. *)
Inductive call : Set := CallMapFrequency | CallBuildTree | CallMapCodes.

(** [huffman_encoding] with the list of helper calls made before it returned
    or raised.  A truthy value that is not a [str] reaches the loop of
    [map_frequency], which cannot iterate over it. *)
Definition huffman_encoding_traced (data : pyval)
    : list call * res (string * option HuffmanNode) :=
  if negb (truthy data) then ([], Ok ("", None))
  else
    match data with
    | PStr s =>
        let frequencies := map_frequency s in
        match build_tree frequencies with
        | Raise e => ([CallMapFrequency; CallBuildTree], Raise e)
        | Ok tree =>
            ([CallMapFrequency; CallBuildTree; CallMapCodes],
             match tree with
             | None => Raise AttributeError
             | Some t =>
                 let code_mappings := map_codes t "" ∅ in
                 encoding ← encode_chars s code_mappings "";
                 Ok (encoding, tree)
             end)
        end
    | _ => ([CallMapFrequency], Raise TypeError)
    end.

Definition huffman_encoding (data : pyval)
    : res (string * option HuffmanNode) :=
  (huffman_encoding_traced data).2.

(** ** huffman_decoding *)

(** [int(bit)] for a one-character string.  A character is one of the 256
    code points below U+0100, and of these only the ten digits '0' to '9'
    convert; the decimal digits of other scripts, which [int] converts as
    well, lie above this range and have no counterpart here. *)
Definition int_of_bit (bit : ascii) : res nat :=
  let n := nat_of_ascii bit in
  if decide (48 ≤ n ≤ 57) then Ok (n - 48) else Raise ValueError.

(** One round of [for bit in data]: the cursor [node] and the output
    [decoded] before, and after. *)
Definition decode_step (tree node : HuffmanNode) (decoded : string)
    (bit : ascii) : res (HuffmanNode * string) :=
  b ← int_of_bit bit;
  let node :=
    if decide (b = 0) then
      match left_child node with Some l => l | None => node end
    else
      match right_child node with Some r => r | None => node end in
  match left_child node, right_child node with
  | None, None =>
      match char node with
      | Some c => Ok (tree, decoded +:+ str1 c)
      | None => Raise TypeError
      end
  | _, _ => Ok (node, decoded)
  end.

Fixpoint decode_loop (tree node : HuffmanNode) (decoded : string)
    (data : string) : res string :=
  match data with
  | EmptyString => Ok decoded
  | String bit rest =>
      '(node, decoded) ← decode_step tree node decoded bit;
      decode_loop tree node decoded rest
  end.

(** With [tree = None] the first bit reads an attribute of [None]. *)
Definition huffman_decoding (data : string) (tree : option HuffmanNode)
    : res string :=
  match tree with
  | Some t => decode_loop t t "" data
  | None =>
      match data with
      | EmptyString => Ok ""
      | String bit _ => _ ← int_of_bit bit; Raise AttributeError
      end
  end.

(** ** The vocabulary of the properties *)

(** A node is a leaf when both children are [None], the test the decoder
    makes; it is internal when both are set. *)
Definition is_leaf (n : HuffmanNode) : Prop :=
  left_child n = None ∧ right_child n = None.

Definition is_internal (n : HuffmanNode) : Prop :=
  is_Some (left_child n) ∧ is_Some (right_child n).

(** All-or-nothing children, at every node of the tree. *)
Fixpoint full (t : HuffmanNode) : Prop :=
  match t with
  | Node _ _ l r =>
      match l, r with
      | Some l', Some r' => full l' ∧ full r'
      | None, None => True
      | _, _ => False
      end
  end.

(** Every node with two children weighs what its children weigh together. *)
Fixpoint weights_ok (t : HuffmanNode) : Prop :=
  match t with
  | Node f _ l r =>
      match l, r with
      | Some l', Some r' =>
          f = freq l' + freq r' ∧ weights_ok l' ∧ weights_ok r'
      | _, _ => True
      end
  end.

(** The leaves of a tree from left to right, each with the path that leads
    to it ("0" for a left step, "1" for a right step) after [code]. *)
Fixpoint leaf_codes (t : HuffmanNode) (code : string)
    : list (option ascii * string) :=
  match t with
  | Node _ c l r =>
      match l, r with
      | Some l', Some r' =>
          leaf_codes l' (code +:+ "0") ++ leaf_codes r' (code +:+ "1")
      | _, _ => [(c, code)]
      end
  end.

(** The tree without its labels. *)
Inductive shape : Set :=
  | SLeaf
  | SNode (l r : option shape).

Fixpoint shape_of (t : HuffmanNode) : shape :=
  match t with
  | Node _ _ l r =>
      match l, r with
      | None, None => SLeaf
      | _, _ =>
          SNode (match l with Some l' => Some (shape_of l') | None => None end)
                (match r with Some r' => Some (shape_of r') | None => None end)
      end
  end.

(** A string of "0" and "1" characters only. *)
Fixpoint bits01 (s : string) : bool :=
  match s with
  | EmptyString => true
  | String c rest =>
      (bool_decide (c = "0"%char) || bool_decide (c = "1"%char)) && bits01 rest
  end.

(** The symbols of a [str], in order. *)
Fixpoint chars (s : string) : list ascii :=
  match s with
  | EmptyString => []
  | String c rest => c :: chars rest
  end.

(** Two entries that Python can order: different weights, or two [str] tags
    that differ. *)
Definition comparable (a b : entry) : Prop :=
  e_freq a ≠ e_freq b ∨
  ∃ s t, e_tag a = Some s ∧ e_tag b = Some t ∧ s ≠ t.

(** Every two items at different places of the list are related by [R]. *)
Fixpoint pairwise {A : Type} (R : A → A → Prop) (l : list A) : Prop :=
  match l with
  | [] => True
  | a :: rest => Forall (R a) rest ∧ pairwise R rest
  end.

Notation pairwise_comparable := (pairwise comparable).

(** *** The decoder as a step relation *)

(** The move a bit asks for: to the child on that side when there is one,
    whatever kind of node the child is; otherwise the cursor stays. *)
Inductive cursor_move : HuffmanNode → ascii → HuffmanNode → Prop :=
  | move_left n l : left_child n = Some l → cursor_move n "0" l
  | stay_left n : left_child n = None → cursor_move n "0" n
  | move_right n r : right_child n = Some r → cursor_move n "1" r
  | stay_right n : right_child n = None → cursor_move n "1" n.

(** One bit: move, then emit the symbol and go back to the root when the
    cursor is on a leaf. *)
Inductive decoder_step (tree : HuffmanNode)
    : HuffmanNode * string → ascii → HuffmanNode * string → Prop :=
  | step_emit node decoded bit node' c :
      cursor_move node bit node' → is_leaf node' → char node' = Some c →
      decoder_step tree (node, decoded) bit (tree, decoded +:+ str1 c)
  | step_walk node decoded bit node' :
      cursor_move node bit node' → ¬ is_leaf node' →
      decoder_step tree (node, decoded) bit (node', decoded).

Inductive decoder_run (tree : HuffmanNode)
    : HuffmanNode * string → string → HuffmanNode * string → Prop :=
  | run_done st : decoder_run tree st "" st
  | run_bit st bit st' rest st'' :
      decoder_step tree st bit st' → decoder_run tree st' rest st'' →
      decoder_run tree st (String bit rest) st''.

(** The step as the specification words it: the cursor moves to the child
    only if that child is an internal node, one that has children. *)
Definition has_children (n : HuffmanNode) : bool :=
  bool_decide (is_Some (left_child n) ∨ is_Some (right_child n)).

Definition claimed_decode_step (tree node : HuffmanNode) (decoded : string)
    (bit : ascii) : res (HuffmanNode * string) :=
  b ← int_of_bit bit;
  let target := if decide (b = 0) then left_child node else right_child node in
  let node :=
    match target with
    | Some child => if has_children child then child else node
    | None => node
    end in
  match left_child node, right_child node with
  | None, None =>
      match char node with
      | Some c => Ok (tree, decoded +:+ str1 c)
      | None => Raise TypeError
      end
  | _, _ => Ok (node, decoded)
  end.

(** The symbols on the leaves of a tree, from left to right. *)
Fixpoint leaves (t : HuffmanNode) : list (option ascii) :=
  match t with
  | Node _ c l r =>
      match l, r with
      | Some l', Some r' => leaves l' ++ leaves r'
      | _, _ => [c]
      end
  end.

(** What the merge loop keeps true of every entry: the node is a full tree
    with the weight invariant, and the tuple carries the node's weight. *)
Definition entry_ok (e : entry) : Prop :=
  full e.2 ∧ weights_ok e.2 ∧ freq e.2 = e.1.1.

Definition queue_leaves (queue : list entry) : list (option ascii) :=
  queue ≫= (λ e, leaves e.2).

Definition queue_weight (queue : list entry) : nat :=
  sum_list (e_freq <$> queue).

(** No entry carries the numeral of a counter value [k ≥ p3] that is still
    to be compared, which are those with [k + 2 < n] for [n] entries at the
    start: the node of the last merge goes into an empty queue. *)
Definition tags_fresh (queue : list entry) (p3 n : nat) : Prop :=
  ∀ e k, e ∈ queue → p3 ≤ k → k + 2 < n →
    ∃ s, e_tag e = Some s ∧ s ≠ str k.

(** No string of the list is a prefix of a string further on, nor the other
    way round. *)
Fixpoint prefix_free (l : list string) : Prop :=
  match l with
  | [] => True
  | p :: rest =>
      Forall (λ q, String.prefix p q = false ∧ String.prefix q p = false)
        rest
      ∧ prefix_free rest
  end.

(** [code] put in front of the path of a leaf. *)
Definition add_code (code : string) (kp : option ascii * string)
    : option ascii * string := (kp.1, code +:+ kp.2).

(** [map[char] = code] for one leaf. *)
Definition put_code (m : gmap (option ascii) string)
    (kp : option ascii * string) : gmap (option ascii) string :=
  <[kp.1:=kp.2]> m.

(** Some symbol of [data] is the numeral of a counter value whose entry can
    meet other entries in the queue: with [n] entries at the start these are
    the values [k] with [k + 2 < n]. *)
Definition tag_collides (data : string) : bool :=
  existsb
    (λ c, existsb (λ k, bool_decide (str1 c = str k))
            (seq 0 (length (map_frequency data) - 2)))
    (chars data).

(** The nodes met when walking down from [t]. *)
Inductive reachable (t : HuffmanNode) : HuffmanNode → Prop :=
  | reach_root : reachable t t
  | reach_left n l :
      reachable t n → left_child n = Some l → reachable t l
  | reach_right n r :
      reachable t n → right_child n = Some r → reachable t r.

(** [n] times the character [c]. *)
Fixpoint repeat_char (n : nat) (c : ascii) : string :=
  match n with
  | 0 => EmptyString
  | S n' => String c (repeat_char n' c)
  end.

(** ** The same run, with the identity of the node objects *)

(** [tuple_lt] relies on the nodes of two queue entries being different
    objects.  Here every node put on the queue carries its identity, taken
    from an allocation counter, and the comparison of two nodes is Python's:
    [==] holds for one and the same object, in which case the tuples are
    equal and [<] is false, and [<] between two objects raises.  The
    counter value [next] at the start of a call is what distinguishes one
    call from another. *)
Notation ientry := (nat * entry)%type.

Definition tuple_lt_id (a b : ientry) : res bool :=
  if decide (e_freq a.2 = e_freq b.2) then
    let nodes := if decide (a.1 = b.1) then Ok false else Raise TypeError in
    match e_tag a.2, e_tag b.2 with
    | Some s, Some t => if decide (s = t) then nodes else Ok (String.ltb s t)
    | None, None => nodes
    | _, _ => Raise TypeError
    end
  else Ok (bool_decide (e_freq a.2 < e_freq b.2)).

(** The nodes of [map_frequency] are created in the order of the list. *)
Definition map_frequency_at (next : nat) (data : string) : list ientry :=
  imap (λ i e, (next + i, e)) (map_frequency data).

Fixpoint put_all_at (queue : list ientry) (frequencies : list ientry)
    : res (list ientry) :=
  match frequencies with
  | [] => Ok queue
  | f :: rest =>
      queue ← heapq.heappush tuple_lt_id queue f; put_all_at queue rest
  end.

(** Each round creates the parent node, the next object. *)
Fixpoint merge_loop_at (fuel next : nat) (queue : list ientry) (p3 : nat)
    : res (list ientry) :=
  if decide (1 < length queue) then
    match fuel with
    | 0 => Raise OutOfFuel
    | S fuel' =>
        '(_, (lt_freq, lt_char, lt_node), queue) ←
          heapq.heappop tuple_lt_id queue;
        '(_, (rt_freq, rt_char, rt_node), queue) ←
          heapq.heappop tuple_lt_id queue;
        let p_freq := lt_freq + rt_freq in
        let parent := Node p_freq None (Some lt_node) (Some rt_node) in
        queue ← heapq.heappush tuple_lt_id queue
                  (next, (p_freq, Some (str p3), parent));
        merge_loop_at fuel' (next + 1) queue (p3 + 1)
    end
  else Ok queue.

Definition build_tree_at (next : nat) (frequencies : list ientry)
    : res (option HuffmanNode) :=
  if decide (length frequencies = 0) then Ok None
  else
    queue ← put_all_at [] frequencies;
    queue ← merge_loop_at (length queue) next queue 0;
    '(root, _) ← heapq.heappop tuple_lt_id queue;
    Ok (Some root.2.2).

Definition huffman_encoding_at (next : nat) (data : pyval)
    : res (string * option HuffmanNode) :=
  if negb (truthy data) then Ok ("", None)
  else
    match data with
    | PStr s =>
        let frequencies := map_frequency_at next s in
        tree ← build_tree_at (next + length frequencies) frequencies;
        match tree with
        | None => Raise AttributeError
        | Some t =>
            let code_mappings := map_codes t "" ∅ in
            encoding ← encode_chars s code_mappings "";
            Ok (encoding, tree)
        end
    | _ => Raise TypeError
    end.

(** Two queue entries that hold different objects. *)
Definition distinct_ids (a b : ientry) : Prop := a.1 ≠ b.1.

(** The computation returns, or raises [TypeError]. *)
Definition ok_or_TypeError {A : Type} (m : res A) : Prop :=
  match m with
  | Ok _ => True
  | Raise e => e = TypeError
  end.

(** ** More vocabulary *)

(** The distinct symbols of a list, each at the place of its first
    occurrence. *)
Fixpoint distinct (l : list ascii) : list ascii :=
  match l with
  | [] => []
  | c :: rest => c :: filter (λ x, x ≠ c) (distinct rest)
  end.

(** How often the symbol [c] occurs in [data]. *)
Definition occurrences (c : ascii) (data : string) : nat :=
  length (filter (λ x, x = c) (chars data)).

(** The characters '0' to '9'. *)
Definition is_digit (c : ascii) : Prop := 48 ≤ nat_of_ascii c ≤ 57.

(** The decoder's loop with the cursor kept: the cursor and the output
    after all bits of [data]. *)
Fixpoint decode_run (tree node : HuffmanNode) (decoded : string)
    (data : string) : res (HuffmanNode * string) :=
  match data with
  | EmptyString => Ok (node, decoded)
  | String bit rest =>
      '(node, decoded) ← decode_step tree node decoded bit;
      decode_run tree node decoded rest
  end.

(** Every digit from '1' to '9' written as '1'. *)
Definition normalize_bit (bit : ascii) : ascii :=
  if decide (49 ≤ nat_of_ascii bit ≤ 57) then "1"%char else bit.

Fixpoint normalize_bits (data : string) : string :=
  match data with
  | EmptyString => EmptyString
  | String bit rest => String (normalize_bit bit) (normalize_bits rest)
  end.


(** ** The heap order and the shape it gives the tree *)

(** Position [j] is a child position of [i] in the heap. *)
Definition child (i j : nat) : Prop := j = 2 * i + 1 ∨ j = 2 * i + 2.

(** The heap invariant of [heapq]: under the order [le], no item is below
    the item at its parent position. *)
Definition heap_ordered {A : Type} (le : A → A → Prop) (heap : list A)
    : Prop :=
  ∀ i j a b, child i j → heap !! i = Some a → heap !! j = Some b → le a b.

(** The same with one position left out of the comparison, the position a
    sifting loop is about to overwrite. *)
Definition ordered_except {A : Type} (le : A → A → Prop) (heap : list A)
    (pos : nat) : Prop :=
  ∀ i j a b, child i j → i ≠ pos → j ≠ pos →
    heap !! i = Some a → heap !! j = Some b → le a b.

(** The parent of the overwritten position is not above its children. *)
Definition hole_bridged {A : Type} (le : A → A → Prop) (heap : list A)
    (pos : nat) : Prop :=
  ∀ i j a b, child i pos → child pos j →
    heap !! i = Some a → heap !! j = Some b → le a b.

(** Entries by weight. *)
Definition lighter (a b : entry) : Prop := e_freq a ≤ e_freq b.

(** At every node with two children the left child weighs no more than the
    right child. *)
Fixpoint lighter_left (t : HuffmanNode) : Prop :=
  match t with
  | Node _ _ l r =>
      match l, r with
      | Some l', Some r' =>
          freq l' ≤ freq r' ∧ lighter_left l' ∧ lighter_left r'
      | _, _ => True
      end
  end.

(** The queues that [put] and [get] make of the empty queue. *)
Inductive queue_state : list entry → Prop :=
  | queue_new : queue_state []
  | queue_put queue e queue' :
      queue_state queue → heapq.heappush tuple_lt queue e = Ok queue' →
      queue_state queue'
  | queue_get queue e queue' :
      queue_state queue → heapq.heappop tuple_lt queue = Ok (e, queue') →
      queue_state queue'.

(** What the merge loop keeps true of every entry, beside [entry_ok]. *)
Definition entry_lighter_left (e : entry) : Prop :=
  freq e.2 = e_freq e ∧ lighter_left e.2.


(** The leaves of a tree, each with the weight it carries. *)
Fixpoint leaf_weights (t : HuffmanNode) : list (option ascii * nat) :=
  match t with
  | Node f c l r =>
      match l, r with
      | Some l', Some r' => leaf_weights l' ++ leaf_weights r'
      | _, _ => [(c, f)]
      end
  end.

Definition queue_leaf_weights (queue : list entry)
    : list (option ascii * nat) :=
  queue ≫= (λ e, leaf_weights e.2).

(** * Proofs *)

(** ** The result monad *)

Lemma bind_Ok {A B : Type} (m : res A) (k : A → res B) (b : B) :
  m ≫= k = Ok b ↔ ∃ a, m = Ok a ∧ k a = Ok b.
Proof.
  destruct m as [a|e]; simpl; split.
  - eauto.
  - by intros (? & [= <-] & ?).
  - done.
  - by intros (? & ? & ?).
Qed.

Lemma getitem_Ok {A : Type} (l : list A) (i : nat) (x : A) :
  getitem l i = Ok x ↔ l !! i = Some x.
Proof. unfold getitem. destruct (l !! i); split; congruence. Qed.

Lemma setitem_Ok {A : Type} (l l' : list A) (i : nat) (x : A) :
  setitem l i x = Ok l' ↔ i < length l ∧ l' = <[i:=x]> l.
Proof.
  unfold setitem. case_decide.
  - split; [by intros [= <-]|by intros [_ ->]].
  - split; [done|by intros [? _]].
Qed.

(** ** Lists with one slot rewritten *)

Section slots.
Context {A : Type}.
Implicit Types (l : list A) (x : A) (i j : nat).

Lemma delete_insert_same l i x : delete i (<[i:=x]> l) = delete i l.
Proof. revert i. induction l; intros [|i]; simpl; f_equal; auto. Qed.

Lemma insert_hole_perm l i x :
  i < length l → <[i:=x]> l ≡ₚ x :: delete i l.
Proof.
  intros Hi. rewrite <-(delete_insert_same l i x).
  apply delete_Permutation. by apply list_lookup_insert_eq.
Qed.

(** Moving the element of slot [i] into slot [j] and leaving [i] out is,
    up to order, leaving [j] out. *)
Lemma delete_insert_move l i j x :
  l !! i = Some x → i ≠ j → j < length l →
  delete i (<[j:=x]> l) ≡ₚ delete j l.
Proof.
  intros Hi Hij Hj. apply (Permutation_cons_inv (a:=x)).
  rewrite <-(insert_hole_perm l j x) by done.
  symmetry. apply delete_Permutation.
  by rewrite list_lookup_insert_ne.
Qed.
End slots.

(** ** heapq keeps the entries *)

Section heap_perm.
Import heapq.
Context {A : Type} (lt : A → A → res bool).
Implicit Types (heap h : list A) (item newitem : A).

(** [(pos - 1) >> 1], as [simpl] shows it. *)
Lemma parentpos_lt pos : 0 < pos → Nat.div2 (pos - 1) < pos.
Proof.
  intros. rewrite Nat.div2_div.
  apply Nat.Div0.div_lt_upper_bound. lia.
Qed.

Lemma siftdown_loop_perm fuel heap startpos pos newitem h :
  pos < length heap →
  siftdown_loop lt fuel heap startpos pos newitem = Ok h →
  h ≡ₚ newitem :: delete pos heap.
Proof.
  revert heap pos.
  induction fuel as [|fuel IH]; intros heap pos Hpos; simpl;
    case_decide as Hlt; try done;
    try by (intros [_ ->]%setitem_Ok; apply insert_hole_perm).
  intros H.
  apply bind_Ok in H as (parent & Hparent%getitem_Ok & H).
  apply bind_Ok in H as ([] & _ & H).
  - apply bind_Ok in H as (heap1 & [_ ->]%setitem_Ok & H).
    pose proof (parentpos_lt pos ltac:(lia)).
    apply IH in H; [|rewrite length_insert; lia].
    rewrite H. constructor.
    apply delete_insert_move; [done|lia|done].
  - apply setitem_Ok in H as [_ ->]. by apply insert_hole_perm.
Qed.

Lemma siftdown_perm heap startpos pos h :
  _siftdown lt heap startpos pos = Ok h → h ≡ₚ heap.
Proof.
  unfold _siftdown. intros H.
  apply bind_Ok in H as (newitem & Hnew%getitem_Ok & H).
  apply siftdown_loop_perm in H; [|by eapply lookup_lt_Some].
  rewrite H. symmetry. by apply delete_Permutation.
Qed.

Lemma siftup_loop_perm fuel heap endpos pos h pos' :
  pos < length heap → endpos ≤ length heap →
  siftup_loop lt fuel heap endpos pos = Ok (h, pos') →
  pos' < length h ∧ pos ≤ pos' ∧ length h = length heap ∧
  delete pos' h ≡ₚ delete pos heap.
Proof.
  revert heap pos.
  induction fuel as [|fuel IH]; intros heap pos Hpos Hend;
    cbn -[Nat.mul]; case_decide as Hlt; intros H; try done;
    try by (simplify_eq; auto with lia).
  apply bind_Ok in H as (childpos & Hchild & H).
  apply bind_Ok in H as (c & Hc%getitem_Ok & H).
  apply bind_Ok in H as (heap1 & [_ ->]%setitem_Ok & H).
  assert (pos < childpos) as Hx.
  { case_decide; [|simplify_eq; lia].
    apply bind_Ok in Hchild as (? & _ & Hchild).
    apply bind_Ok in Hchild as (? & _ & Hchild).
    apply bind_Ok in Hchild as ([] & _ & Hchild); simplify_eq; lia. }
  apply IH in H as (? & ? & Hlen & Hperm);
    [|rewrite length_insert; by eapply lookup_lt_Some
     |by rewrite length_insert].
  rewrite length_insert in Hlen.
  split_and!; [done|lia|done|].
  rewrite Hperm. apply delete_insert_move; [done|lia|done].
Qed.

Lemma siftup_perm heap pos h : _siftup lt heap pos = Ok h → h ≡ₚ heap.
Proof.
  unfold _siftup. intros H.
  apply bind_Ok in H as (newitem & Hnew%getitem_Ok & H).
  apply bind_Ok in H as ([h1 pos1] & Hloop & H).
  apply bind_Ok in H as (h2 & [_ ->]%setitem_Ok & H%siftdown_perm).
  apply siftup_loop_perm in Hloop as (? & ? & ? & Hperm);
    [|by eapply lookup_lt_Some|done].
  rewrite H, insert_hole_perm, Hperm by done.
  symmetry. by apply delete_Permutation.
Qed.

Lemma heappush_perm heap item h :
  heappush lt heap item = Ok h → h ≡ₚ item :: heap.
Proof.
  unfold heappush. intros H%siftdown_perm.
  by rewrite H, Permutation_app_comm.
Qed.

Lemma heappop_perm heap item h :
  heappop lt heap = Ok (item, h) → heap ≡ₚ item :: h.
Proof.
  unfold heappop.
  rewrite <-(reverse_involutive heap) at 2.
  destruct (reverse heap) as [|lastelt rest]; [done|].
  rewrite reverse_cons.
  destruct (reverse rest) as [|returnitem rest'].
  - by intros [= -> <-].
  - intros H. apply bind_Ok in H as (h1 & [_ ->]%setitem_Ok & H).
    apply bind_Ok in H as (h2 & Hup%siftup_perm & [= -> ->]).
    rewrite Hup. simpl.
    constructor. symmetry. apply Permutation_cons_append.
Qed.
End heap_perm.

(** ** heapq raises nothing on comparable entries *)

Lemma comparable_sym : Symmetric comparable.
Proof.
  intros a b [?|(s & t & ? & ? & ?)]; [left; congruence|right].
  exists t, s. auto.
Qed.

Lemma tuple_lt_comparable a b : comparable a b → ∃ r, tuple_lt a b = Ok r.
Proof.
  unfold tuple_lt.
  intros [?|(s & t & -> & -> & ?)]; case_decide; try done; eauto.
  case_decide; [done|eauto].
Qed.

Section pairwise.
Context {A : Type} (R : A → A → Prop) `{!Symmetric R}.
Implicit Types (l : list A).

Global Instance pairwise_perm : Proper ((≡ₚ) ==> iff) (pairwise R).
Proof.
  assert (∀ l l', l ≡ₚ l' → pairwise R l → pairwise R l') as Himp.
  { induction 1 as [|x l l' Hp IH|x y l|l l' l'' _ IH1 _ IH2]; simpl.
    - done.
    - intros [? ?]. split; [by rewrite <-Hp|auto].
    - intros [[? ?]%Forall_cons [? ?]].
      split_and!; [constructor; [by symmetry|done]|done..].
    - auto. }
  intros l l' Hp. split; apply Himp; [done|by symmetry].
Qed.

Lemma pairwise_lookup l i j a b :
  pairwise R l → i ≠ j → l !! i = Some a → l !! j = Some b → R a b.
Proof.
  revert i j. induction l as [|x l IH]; intros [|i] [|j]; simpl; try done.
  - intros [Hall _] _ [= ->] Hb%list_elem_of_lookup_2.
    by eapply Forall_forall in Hall.
  - intros [Hall _] _ Ha%list_elem_of_lookup_2 [= ->].
    symmetry. by eapply Forall_forall in Hall.
  - intros [_ ?] ?. eapply IH; [done|lia].
Qed.

Lemma pairwise_tail a l : pairwise R (a :: l) → pairwise R l.
Proof. by intros [_ ?]. Qed.
End pairwise.

Global Existing Instance comparable_sym.

(** [R] relates the pairs of items that [lt] orders without raising. *)
Section heap_total.
Import heapq.
Context {A : Type} (lt : A → A → res bool).
Context (R : A → A → Prop) `{!Symmetric R}.
Context (lt_total : ∀ a b, R a b → ∃ r, lt a b = Ok r).
Implicit Types (heap h : list A) (item newitem : A).

Lemma siftdown_loop_total fuel heap startpos pos newitem :
  pairwise R (newitem :: delete pos heap) →
  pos < length heap → pos ≤ fuel →
  ∃ h, siftdown_loop lt fuel heap startpos pos newitem = Ok h.
Proof.
  revert heap pos.
  induction fuel as [|fuel IH]; intros heap pos Hpw Hpos Hfuel; simpl;
    case_decide as Hlt; try lia;
    try by (unfold setitem; rewrite decide_True by done; eauto).
  pose proof (parentpos_lt pos ltac:(lia)) as Hpp.
  destruct (lookup_lt_is_Some_2 heap (Nat.div2 (pos - 1)) ltac:(lia))
    as [parent Hparent].
  unfold getitem at 1. rewrite Hparent. simpl.
  destruct (lt_total newitem parent) as [b ->].
  { destruct Hpw as [Hall _]. eapply Forall_forall in Hall; [done|].
    apply (list_elem_of_lookup_2 _ (Nat.div2 (pos - 1))).
    by rewrite list_lookup_delete_lt. }
  simpl. unfold setitem.
  destruct b; rewrite decide_True by done; [|eauto]. simpl.
  apply IH; [|rewrite length_insert; lia|lia].
  destruct Hpw as [Hall Hpw]. simpl.
  by rewrite delete_insert_move by (done || lia).
Qed.

Lemma siftdown_total heap startpos pos :
  pairwise R heap → pos < length heap →
  ∃ h, _siftdown lt heap startpos pos = Ok h.
Proof.
  intros Hpw Hpos. unfold _siftdown.
  destruct (lookup_lt_is_Some_2 heap pos Hpos) as [newitem Hnew].
  unfold getitem. rewrite Hnew. simpl.
  apply siftdown_loop_total; [|done..].
  by rewrite <-delete_Permutation.
Qed.

Lemma siftup_loop_total fuel heap endpos pos :
  pairwise R (delete pos heap) →
  pos < length heap → endpos = length heap → endpos - pos ≤ fuel →
  ∃ h pos', siftup_loop lt fuel heap endpos pos = Ok (h, pos').
Proof.
  revert heap pos.
  induction fuel as [|fuel IH]; intros heap pos Hpw Hpos Hend Hfuel;
    cbn -[Nat.mul]; case_decide as Hlt; try lia; eauto.
  assert (∃ childpos,
    (if decide (2 * pos + 1 + 1 < endpos)
     then c ← getitem heap (2 * pos + 1);
          r ← getitem heap (2 * pos + 1 + 1);
          b ← lt c r;
          Ok (if b : bool then 2 * pos + 1 else 2 * pos + 1 + 1)
     else Ok (2 * pos + 1)) = Ok childpos ∧
    pos < childpos < endpos) as (childpos & -> & Hchild).
  { case_decide as Hr; [|eauto with lia].
    destruct (lookup_lt_is_Some_2 heap (2 * pos + 1) ltac:(lia)) as [c Hc].
    destruct (lookup_lt_is_Some_2 heap (2 * pos + 1 + 1) ltac:(lia))
      as [r Hr'].
    unfold getitem. rewrite Hc, Hr'. simpl.
    destruct (lt_total c r) as [b ->].
    { apply (pairwise_lookup R (delete pos heap)
               (2 * pos) (2 * pos + 1)); [done|lia|..];
        rewrite list_lookup_delete_ge by lia; [rewrite <-Hc|rewrite <-Hr'];
        f_equal; lia. }
    simpl. destruct b; eauto with lia. }
  simpl.
  destruct (lookup_lt_is_Some_2 heap childpos ltac:(lia)) as [c Hc].
  unfold getitem. rewrite Hc. simpl.
  unfold setitem. rewrite decide_True by done. simpl.
  apply IH; [|rewrite ?length_insert; lia..].
  by rewrite delete_insert_move by (done || lia).
Qed.

Lemma siftup_total heap pos :
  pairwise R heap → pos < length heap →
  ∃ h, _siftup lt heap pos = Ok h.
Proof.
  intros Hpw Hpos. unfold _siftup.
  destruct (lookup_lt_is_Some_2 heap pos Hpos) as [newitem Hnew].
  unfold getitem at 1. rewrite Hnew. simpl.
  rewrite (delete_Permutation heap pos newitem) in Hpw by done.
  destruct (siftup_loop_total (length heap) heap (length heap) pos)
    as (h1 & pos1 & Hloop); [by destruct Hpw|done|done|lia|].
  rewrite Hloop. simpl.
  apply siftup_loop_perm in Hloop as (? & ? & ? & Hperm); [|done..].
  unfold setitem. rewrite decide_True by done. simpl.
  unfold _siftdown, getitem.
  rewrite list_lookup_insert_eq by done. simpl.
  apply siftdown_loop_total; [|by rewrite length_insert|done].
  by rewrite delete_insert_same, Hperm.
Qed.

Lemma heappush_total heap item :
  pairwise R (item :: heap) → ∃ h, heappush lt heap item = Ok h.
Proof.
  intros Hpw. unfold heappush. apply siftdown_total.
  - by rewrite <-Permutation_cons_append.
  - rewrite length_app. simpl. lia.
Qed.

Lemma heappop_total heap :
  pairwise R heap → heap ≠ [] →
  ∃ item h, heappop lt heap = Ok (item, h).
Proof.
  intros Hpw Hne. unfold heappop.
  rewrite <-(reverse_involutive heap) in Hpw.
  destruct (reverse heap) as [|lastelt rest] eqn:Hrev.
  { apply (f_equal reverse) in Hrev.
    by rewrite reverse_involutive in Hrev. }
  rewrite reverse_cons in Hpw.
  destruct (reverse rest) as [|returnitem rest']; [eauto|].
  unfold setitem. rewrite decide_True by (simpl; lia). simpl.
  destruct (siftup_total (lastelt :: rest') 0) as [h ->];
    [|simpl; lia|simpl; eauto].
  rewrite <-Permutation_cons_append in Hpw. simpl in Hpw.
  destruct Hpw as ([_ ?]%Forall_cons & _ & ?). by split.
Qed.
End heap_total.

(** The queue of [build_tree]: entries under Python's tuple comparison. *)
Lemma entry_heappush_total (q : list entry) (e : entry) :
  pairwise_comparable (e :: q) → ∃ h, heapq.heappush tuple_lt q e = Ok h.
Proof. apply (heappush_total _ comparable), tuple_lt_comparable. Qed.

Lemma entry_heappop_total (q : list entry) :
  pairwise_comparable q → q ≠ [] →
  ∃ e h, heapq.heappop tuple_lt q = Ok (e, h).
Proof. apply (heappop_total _ comparable), tuple_lt_comparable. Qed.

(** ** map_frequency *)

Section frequencies.
Implicit Types (d : list (ascii * nat)) (c : ascii) (data : string).
Implicit Types (q : list entry).

Lemma dict_incr_keys d c c' :
  c' ∈ (dict_incr d c).*1 ↔ c' = c ∨ c' ∈ d.*1.
Proof.
  induction d as [|[k v] d IH]; simpl.
  - rewrite list_elem_of_singleton. set_solver.
  - case_decide; simpl; rewrite !elem_of_cons, ?IH; naive_solver.
Qed.

Lemma dict_incr_NoDup d c : NoDup d.*1 → NoDup (dict_incr d c).*1.
Proof.
  induction d as [|[k v] d IH]; simpl.
  - intros _. apply NoDup_singleton.
  - intros [Hk Hd]%NoDup_cons. case_decide; simpl.
    + by apply NoDup_cons.
    + apply NoDup_cons. split; [|auto].
      rewrite dict_incr_keys. naive_solver.
Qed.

Lemma dict_incr_sum d c :
  sum_list (dict_incr d c).*2 = S (sum_list d.*2).
Proof.
  induction d as [|[k v] d IH]; csimpl; [done|].
  case_decide; csimpl; rewrite ?IH; lia.
Qed.

Lemma dict_incr_pos d c :
  Forall (λ kv, 0 < kv.2) d → Forall (λ kv, 0 < kv.2) (dict_incr d c).
Proof.
  induction 1 as [|[k v] d ? ? IH]; simpl.
  - repeat constructor.
  - case_decide; constructor; simpl in *; (done || lia).
Qed.

Lemma count_chars_keys data d c :
  c ∈ (count_chars data d).*1 ↔ c ∈ chars data ∨ c ∈ d.*1.
Proof.
  revert d. induction data as [|a data IH]; intros d; simpl.
  - set_solver.
  - rewrite IH, dict_incr_keys, elem_of_cons. naive_solver.
Qed.

Lemma count_chars_NoDup data d :
  NoDup d.*1 → NoDup (count_chars data d).*1.
Proof.
  revert d. induction data; simpl; auto using dict_incr_NoDup.
Qed.

Lemma count_chars_sum data d :
  sum_list (count_chars data d).*2 = String.length data + sum_list d.*2.
Proof.
  revert d. induction data as [|a data IH]; intros d; simpl; [done|].
  rewrite IH, dict_incr_sum. lia.
Qed.

Lemma count_chars_pos data d :
  Forall (λ kv, 0 < kv.2) d → Forall (λ kv, 0 < kv.2) (count_chars data d).
Proof.
  revert d. induction data; simpl; auto using dict_incr_pos.
Qed.

Lemma count_chars_nonempty data d :
  data ≠ "" → count_chars data d ≠ [].
Proof.
  destruct data as [|a data]; [done|]. intros _ Hnil.
  assert (a ∈ (count_chars (String a data) d).*1) as Hin.
  { apply count_chars_keys. left. simpl. left. }
  rewrite Hnil in Hin. by apply elem_of_nil in Hin.
Qed.

Lemma map_frequency_unfold data :
  data ≠ "" →
  map_frequency data =
    (if decide (length (count_chars data []) = 1)
     then [dummy_entry] else []) ++ (leaf_entry <$> count_chars data []).
Proof. by destruct data. Qed.

Lemma queue_weight_app q1 q2 :
  queue_weight (q1 ++ q2) = queue_weight q1 + queue_weight q2.
Proof.
  unfold queue_weight. induction q1 as [|e q1 IH]; csimpl; [done|].
  rewrite IH. lia.
Qed.

Global Instance queue_weight_perm : Proper ((≡ₚ) ==> (=)) queue_weight.
Proof.
  unfold queue_weight.
  induction 1; csimpl; [done|congruence|lia|congruence].
Qed.

Global Instance queue_leaves_perm : Proper ((≡ₚ) ==> (≡ₚ)) queue_leaves.
Proof. intros q1 q2 Hq. unfold queue_leaves. by rewrite Hq. Qed.

Lemma leaf_entries_weight d :
  queue_weight (leaf_entry <$> d) = sum_list d.*2.
Proof.
  unfold queue_weight. induction d as [|[k v] d IH]; csimpl; [done|].
  by rewrite IH.
Qed.

Lemma leaf_entries_leaves d :
  queue_leaves (leaf_entry <$> d) = Some <$> d.*1.
Proof.
  unfold queue_leaves. induction d as [|[k v] d IH]; csimpl; [done|].
  by rewrite IH.
Qed.

Lemma leaf_entries_ok d : Forall entry_ok (leaf_entry <$> d).
Proof. apply Forall_fmap, Forall_true. by intros [k v]. Qed.

Lemma leaf_entries_comparable d :
  NoDup d.*1 → pairwise_comparable (leaf_entry <$> d).
Proof.
  induction d as [|[k v] d IH]; simpl; [done|].
  intros [Hk Hd]%NoDup_cons. split; [|auto].
  apply Forall_fmap, Forall_forall. intros [k' v'] Hin.
  right. exists (str1 k), (str1 k'). split_and!; [done..|].
  intros [= ->]. apply Hk. by apply (list_elem_of_fmap_2 fst) in Hin.
Qed.

Lemma map_frequency_weight data :
  queue_weight (map_frequency data) = String.length data.
Proof.
  destruct (decide (data = "")) as [->|Hne]; [done|].
  rewrite map_frequency_unfold by done.
  rewrite queue_weight_app, leaf_entries_weight, count_chars_sum.
  case_decide; simpl; lia.
Qed.

Lemma map_frequency_ok data : Forall entry_ok (map_frequency data).
Proof.
  destruct (decide (data = "")) as [->|Hne]; [constructor|].
  rewrite map_frequency_unfold by done.
  apply Forall_app. split; [|apply leaf_entries_ok].
  case_decide; repeat constructor.
Qed.

Lemma map_frequency_length data :
  data ≠ "" → 2 ≤ length (map_frequency data).
Proof.
  intros Hne. rewrite map_frequency_unfold by done.
  pose proof (count_chars_nonempty data [] Hne).
  rewrite length_app, length_fmap.
  destruct (count_chars data []) as [|? [|? ?]]; [done|..];
    case_decide; simpl in *; lia.
Qed.

Lemma map_frequency_leaves data c :
  Some c ∈ queue_leaves (map_frequency data) ↔ c ∈ chars data.
Proof.
  destruct (decide (data = "")) as [->|Hne]; [set_solver|].
  rewrite map_frequency_unfold by done.
  unfold queue_leaves. rewrite bind_app.
  fold (queue_leaves (leaf_entry <$> count_chars data [])).
  rewrite leaf_entries_leaves, elem_of_app, list_elem_of_fmap.
  setoid_rewrite count_chars_keys.
  case_decide; simpl; set_solver.
Qed.

Lemma map_frequency_leaves_NoDup data :
  NoDup (queue_leaves (map_frequency data)).
Proof.
  destruct (decide (data = "")) as [->|Hne]; [constructor|].
  rewrite map_frequency_unfold by done.
  unfold queue_leaves. rewrite bind_app.
  fold (queue_leaves (leaf_entry <$> count_chars data [])).
  rewrite leaf_entries_leaves.
  assert (NoDup (Some <$> (count_chars data []).*1)) as Hnd.
  { apply (NoDup_fmap_2 _), count_chars_NoDup. constructor. }
  case_decide; simpl; [|done].
  apply NoDup_cons. split; [|done].
  rewrite list_elem_of_fmap. naive_solver.
Qed.

Lemma map_frequency_comparable data :
  pairwise_comparable (map_frequency data).
Proof.
  destruct (decide (data = "")) as [->|Hne]; [done|].
  rewrite map_frequency_unfold by done.
  pose proof (count_chars_NoDup data [] ltac:(constructor)) as Hnd.
  pose proof (count_chars_pos data [] ltac:(constructor)) as Hpos.
  case_decide; simpl; [|by apply leaf_entries_comparable].
  split; [|by apply leaf_entries_comparable].
  apply Forall_fmap. eapply Forall_impl; [exact Hpos|].
  intros [k v] ?. left. unfold e_freq. simpl in *. lia.
Qed.
End frequencies.

(** ** build_tree *)

Lemma str_inj : Inj (=) (=) str.
Proof.
  intros a b H. unfold str in H.
  apply (f_equal NilEmpty.uint_of_string) in H.
  rewrite !NilEmpty.usu in H. injection H as H.
  apply (f_equal Nat.of_uint) in H. by rewrite !Unsigned.of_to in H.
Qed.

Section build.
Implicit Types (queue q : list entry) (e : entry) (t : HuffmanNode).

Lemma put_all_perm q frequencies q' :
  put_all q frequencies = Ok q' → q' ≡ₚ frequencies ++ q.
Proof.
  revert q. induction frequencies as [|f rest IH]; intros q; simpl.
  - by intros [= ->].
  - intros H. apply bind_Ok in H as (q1 & Hpush%heappush_perm & H).
    apply IH in H. rewrite H, Hpush. symmetry. apply Permutation_middle.
Qed.

Lemma put_all_total q frequencies :
  pairwise_comparable (frequencies ++ q) →
  ∃ q', put_all q frequencies = Ok q'.
Proof.
  revert q. induction frequencies as [|f rest IH]; intros q Hpw; simpl.
  - eauto.
  - destruct (entry_heappush_total q f) as [q1 Hpush].
    { simpl in Hpw. destruct Hpw as [[_ ?]%Forall_app Hpw].
      split; [done|]. rewrite Permutation_app_comm in Hpw.
      clear -Hpw. induction q as [|x q IH]; simpl in *; [done|].
      destruct Hpw as [[? _]%Forall_app ?]. auto. }
    rewrite Hpush. simpl. apply IH.
    apply heappush_perm in Hpush.
    by rewrite Hpush, <-Permutation_middle.
Qed.

Lemma merge_loop_done fuel q p3 :
  length q ≤ 1 → merge_loop fuel q p3 = Ok q.
Proof. intros. destruct fuel; simpl; by rewrite decide_False by lia. Qed.

(** What one round of the loop does to the queue. *)
Lemma merge_round q p3 a q1 b q2 q3 :
  heapq.heappop tuple_lt q = Ok (a, q1) →
  heapq.heappop tuple_lt q1 = Ok (b, q2) →
  heapq.heappush tuple_lt q2
    (a.1.1 + b.1.1, Some (str p3),
     Node (a.1.1 + b.1.1) None (Some a.2) (Some b.2)) = Ok q3 →
  Forall entry_ok q →
  Forall entry_ok q3 ∧ queue_leaves q3 ≡ₚ queue_leaves q ∧
  queue_weight q3 = queue_weight q ∧ S (length q3) = length q ∧
  (length q3 = 1 → Forall (λ e, is_internal e.2) q3).
Proof.
  intros Ha%heappop_perm Hb%heappop_perm Hp%heappush_perm Hok.
  rewrite Ha, Hb in Hok |- *.
  apply Forall_cons in Hok as [(? & ? & Hfa) Hok].
  apply Forall_cons in Hok as [(? & ? & Hfb) Hok].
  split_and!.
  - rewrite Hp. constructor; [|done].
    split_and!; simpl; [done| |done]. by rewrite Hfa, Hfb.
  - rewrite Hp. unfold queue_leaves. csimpl. by rewrite (assoc_L (++)).
  - rewrite Hp. unfold queue_weight, e_freq. csimpl. lia.
  - rewrite Hp. done.
  - intros Hlen. rewrite Hp in Hlen |- *. destruct q2; [|done].
    repeat constructor; simpl; eauto.
Qed.

Lemma merge_loop_inv fuel q p3 q' :
  merge_loop fuel q p3 = Ok q' →
  Forall entry_ok q →
  Forall entry_ok q' ∧ queue_leaves q' ≡ₚ queue_leaves q ∧
  queue_weight q' = queue_weight q ∧
  (1 ≤ length q → length q' = 1) ∧
  (2 ≤ length q ∨ Forall (λ e, is_internal e.2) q →
   Forall (λ e, is_internal e.2) q').
Proof.
  revert q p3.
  induction fuel as [|fuel IH]; intros q p3 H Hok;
    (destruct (decide (1 < length q)) as [Hlen|Hlen];
     [|rewrite merge_loop_done in H by lia; injection H as <-;
       split_and!; [done..|lia|intros [?|?]; [lia|done]]]);
    simpl in H; rewrite decide_True in H by done; [done|].
  apply bind_Ok in H as ([[[lt_freq lt_char] lt_node] q1] & Hpop1 & H).
  apply bind_Ok in H as ([[[rt_freq rt_char] rt_node] q2] & Hpop2 & H).
  apply bind_Ok in H as (q3 & Hpush & H).
  destruct (merge_round _ _ _ _ _ _ _ Hpop1 Hpop2 Hpush Hok)
    as (Hok3 & Hl3 & Hw3 & Hlen3 & Hint3).
  destruct (IH _ _ H Hok3) as (? & Hl & Hw & Hlen' & Hint).
  split_and!; [done|by rewrite Hl|by rewrite Hw|intros; apply Hlen'; lia|].
  intros _. apply Hint.
  destruct (decide (length q3 = 1)); [auto|left; lia].
Qed.

Lemma build_tree_None frequencies :
  build_tree frequencies = Ok None → frequencies = [].
Proof.
  unfold build_tree. case_decide as Hlen.
  - intros _. by destruct frequencies.
  - intros H. apply bind_Ok in H as (? & _ & H).
    apply bind_Ok in H as (? & _ & H).
    by apply bind_Ok in H as ([? ?] & _ & ?).
Qed.

Lemma build_tree_inv frequencies t :
  build_tree frequencies = Ok (Some t) →
  Forall entry_ok frequencies → 2 ≤ length frequencies →
  full t ∧ weights_ok t ∧ is_internal t ∧
  leaves t ≡ₚ queue_leaves frequencies ∧
  freq t = queue_weight frequencies.
Proof.
  unfold build_tree. case_decide as Hlen0; [done|].
  intros H Hok Hlen.
  apply bind_Ok in H as (q0 & Hput%put_all_perm & H).
  apply bind_Ok in H as (q1 & Hloop & H).
  apply bind_Ok in H as ([root rest] & Hpop%heappop_perm & [= <-]).
  rewrite app_nil_r in Hput.
  apply merge_loop_inv in Hloop as (Hok1 & Hl & Hw & Hlen1 & Hint);
    [|by rewrite Hput].
  rewrite Hput in Hl, Hw, Hlen1, Hint.
  specialize (Hlen1 ltac:(lia)). specialize (Hint ltac:(auto)).
  assert (is_internal root.2) as Hroot.
  { rewrite Forall_forall in Hint. apply Hint. rewrite Hpop. left. }
  rewrite Hpop in Hok1, Hl, Hw, Hlen1.
  destruct rest; [|done].
  apply Forall_singleton in Hok1 as (? & ? & Hf).
  split_and!; [done..| |].
  - rewrite <-Hl. unfold queue_leaves. csimpl. by rewrite app_nil_r.
  - rewrite <-Hw, Hf. unfold queue_weight, e_freq. csimpl. lia.
Qed.
End build.

(** ** build_tree returns when the tags do not collide *)

Section build_total.
Implicit Types (queue q : list entry) (e : entry).

Lemma merge_loop_total fuel q p3 n :
  pairwise_comparable q → tags_fresh q p3 n →
  n = p3 + length q → length q ≤ fuel →
  ∃ q', merge_loop fuel q p3 = Ok q' ∧ (1 ≤ length q → length q' = 1).
Proof.
  revert q p3.
  induction fuel as [|fuel IH]; intros q p3 Hpw Hfresh Hn Hfuel;
    (destruct (decide (1 < length q)) as [Hlen|Hlen];
     [|rewrite merge_loop_done by lia; eauto with lia]); [lia|].
  simpl. rewrite decide_True by done.
  destruct (entry_heappop_total q) as ([[fa ta] na] & q1 & Hpop1);
    [done|intros ->; simpl in Hlen; lia|].
  rewrite Hpop1. simpl. apply heappop_perm in Hpop1.
  rewrite Hpop1 in Hpw. apply pairwise_tail in Hpw.
  destruct (entry_heappop_total q1) as ([[fb tb] nb] & q2 & Hpop2); [done|..].
  { intros ->. rewrite Hpop1 in Hlen. simpl in Hlen. lia. }
  rewrite Hpop2. simpl. apply heappop_perm in Hpop2.
  rewrite Hpop2 in Hpw. apply pairwise_tail in Hpw.
  assert (∀ e, e ∈ q2 → e ∈ q) as Hsub.
  { intros e ?. rewrite Hpop1, Hpop2. by do 2 right. }
  assert (length q = S (S (length q2))) as Hlen2.
  { by rewrite Hpop1, Hpop2. }
  set (parent := (fa + fb, Some (str p3),
                  Node (fa + fb) None (Some na) (Some nb)) : entry).
  assert (pairwise_comparable (parent :: q2)) as Hpar.
  { split; [|done]. apply Forall_forall. intros e He.
    destruct (Hfresh e p3) as (s & Hs & Hne);
      [auto|done|destruct q2; [by apply elem_of_nil in He|simpl in *; lia]|].
    right. exists (str p3), s. auto. }
  destruct (entry_heappush_total q2 parent Hpar) as [q3 Hpush].
  rewrite Hpush. simpl. apply heappush_perm in Hpush.
  destruct (IH q3 (p3 + 1)) as (q' & -> & Hq');
    [by rewrite Hpush| |rewrite Hpush; simpl; lia..|].
  - intros e k He Hk Hkn. rewrite Hpush in He.
    apply elem_of_cons in He as [->|He]; [|apply Hfresh; auto with lia].
    exists (str p3). split; [done|]. intros ?%str_inj. lia.
  - exists q'. split; [done|]. intros _. apply Hq'.
    rewrite Hpush. simpl. lia.
Qed.

Lemma build_tree_total frequencies :
  frequencies ≠ [] → pairwise_comparable frequencies →
  tags_fresh frequencies 0 (length frequencies) →
  ∃ t, build_tree frequencies = Ok (Some t).
Proof.
  intros Hne Hpw Hfresh. unfold build_tree.
  rewrite decide_False by (by destruct frequencies).
  destruct (put_all_total [] frequencies) as [q0 Hput];
    [by rewrite app_nil_r|].
  rewrite Hput. simpl. apply put_all_perm in Hput.
  rewrite app_nil_r in Hput.
  destruct (merge_loop_total (length q0) q0 0 (length frequencies))
    as (q1 & -> & Hlen); [by rewrite Hput| |by rewrite Hput|done|].
  { intros e k He. apply Hfresh. by rewrite <-Hput. }
  simpl. destruct q1 as [|root [|? ?]]; [| |].
  - destruct frequencies; [done|]. rewrite Hput in Hlen.
    simpl in Hlen. lia.
  - simpl. eauto.
  - destruct frequencies; [done|]. rewrite Hput in Hlen.
    simpl in Hlen. lia.
Qed.

Lemma map_frequency_fresh data :
  (∀ c k, c ∈ chars data → k + 2 < length (map_frequency data) →
     str1 c ≠ str k) →
  tags_fresh (map_frequency data) 0 (length (map_frequency data)).
Proof.
  intros Hdata e k He _ Hk.
  destruct (decide (data = "")) as [->|Hne]; [by apply elem_of_nil in He|].
  rewrite map_frequency_unfold in He, Hk, Hdata by done.
  apply elem_of_app in He as [He|He].
  - case_decide as Hone; [|by apply elem_of_nil in He].
    rewrite length_app, length_fmap, Hone in Hk. simpl in Hk. lia.
  - apply list_elem_of_fmap in He as ([c v] & -> & Hcv).
    exists (str1 c). split; [done|]. apply Hdata; [|done].
    apply (list_elem_of_fmap_2 fst) in Hcv.
    apply count_chars_keys in Hcv as [?|[]%elem_of_nil]. done.
Qed.
End build_total.

(** ** Strings *)

Section strings.
Implicit Types (s p q : string) (a b : ascii).

Lemma string_app_cons a s p : String a s +:+ p = String a (s +:+ p).
Proof. done. Qed.

Lemma string_app_assoc s p q : (s +:+ p) +:+ q = s +:+ (p +:+ q).
Proof.
  induction s as [|a s IH]; [done|]. by rewrite !string_app_cons, IH.
Qed.

Lemma string_app_nil_r s : s +:+ "" = s.
Proof.
  induction s as [|a s IH]; [done|]. by rewrite string_app_cons, IH.
Qed.

Lemma prefix_cons a b p q :
  String.prefix (String a p) (String b q)
  = if decide (a = b) then String.prefix p q else false.
Proof. simpl. destruct (ascii_dec a b); by case_decide. Qed.

Lemma prefix_app s p q : String.prefix (s +:+ p) (s +:+ q) = String.prefix p q.
Proof.
  induction s as [|a s IH]; [done|].
  rewrite !string_app_cons, prefix_cons. by rewrite decide_True.
Qed.

Lemma prefix_refl s : String.prefix s s = true.
Proof.
  induction s as [|a s IH]; [done|]. rewrite prefix_cons.
  by rewrite decide_True.
Qed.

Lemma bits01_app s p : bits01 (s +:+ p) = bits01 s && bits01 p.
Proof.
  induction s as [|a s IH]; [done|].
  rewrite string_app_cons. simpl. by rewrite IH, andb_assoc.
Qed.
End strings.

(** ** Full trees and their codes *)

(** Induction over the trees with all-or-nothing children. *)
Lemma full_ind (P : HuffmanNode → Prop) :
  (∀ f c, P (Node f c None None)) →
  (∀ f c l r,
     full l → full r → P l → P r → P (Node f c (Some l) (Some r))) →
  ∀ t, full t → P t.
Proof.
  intros Hleaf Hnode. fix IH 1.
  intros [f c [l|] [r|]]; simpl; try done.
  intros [? ?]. apply Hnode; auto.
Qed.

Section codes.
Implicit Types (t : HuffmanNode) (code p : string) (k : option ascii).
Implicit Types (m : gmap (option ascii) string).

Lemma leaf_codes_keys t code : full t → (leaf_codes t code).*1 = leaves t.
Proof.
  intros Hfull. revert code.
  induction Hfull as [f c|f c l r _ _ IHl IHr] using full_ind;
    intros code; simpl; [done|].
  by rewrite fmap_app, IHl, IHr.
Qed.

Lemma leaf_codes_add t code :
  full t → leaf_codes t code = add_code code <$> leaf_codes t "".
Proof.
  intros Hfull. revert code.
  induction Hfull as [f c|f c l r _ _ IHl IHr] using full_ind;
    intros code; simpl.
  - unfold add_code. simpl. by rewrite string_app_nil_r.
  - change ("" +:+ "0") with "0". change ("" +:+ "1") with "1".
    rewrite fmap_app, (IHl (code +:+ "0")), (IHr (code +:+ "1")).
    rewrite (IHl "0"), (IHr "1"), <-!list_fmap_compose.
    f_equal; apply list_fmap_ext; intros _ [k p] _;
      unfold add_code; simpl; by rewrite string_app_assoc.
Qed.

Lemma map_codes_foldl t code m :
  full t → map_codes t code m = foldl put_code m (leaf_codes t code).
Proof.
  intros Hfull. revert code m.
  induction Hfull as [f c|f c l r _ _ IHl IHr] using full_ind;
    intros code m; simpl.
  - unfold put_code. simpl. by rewrite insert_insert_eq.
  - by rewrite foldl_app, IHl, IHr.
Qed.

Lemma foldl_put_code_lookup (l : list (option ascii * string)) m k p :
  NoDup l.*1 →
  foldl put_code m l !! k = Some p ↔
  (k, p) ∈ l ∨ (k ∉ l.*1 ∧ m !! k = Some p).
Proof.
  revert m. induction l as [|[k0 p0] l IH]; intros m; csimpl.
  - intros _. set_solver.
  - intros [Hk0 Hnd]%NoDup_cons. rewrite IH by done.
    unfold put_code. simpl.
    destruct (decide (k = k0)) as [->|Hne].
    + rewrite lookup_insert_eq.
      split.
      * intros [Hin|[_ [= ->]]]; [|left; left].
        by apply (list_elem_of_fmap_2 fst) in Hin.
      * intros [[[= ->]|Hin]%elem_of_cons|[Hnot _]].
        -- by right.
        -- by apply (list_elem_of_fmap_2 fst) in Hin.
        -- destruct Hnot. left.
    + rewrite lookup_insert_ne by done. set_solver.
Qed.

Lemma map_codes_lookup t k p :
  full t → NoDup (leaves t) →
  map_codes t "" ∅ !! k = Some p ↔ (k, p) ∈ leaf_codes t "".
Proof.
  intros Hfull Hnd. rewrite map_codes_foldl by done.
  rewrite foldl_put_code_lookup by (by rewrite leaf_codes_keys).
  rewrite lookup_empty. naive_solver.
Qed.

(** The codes of an internal node are not empty and made of bits. *)
Lemma leaf_codes_bits t code :
  full t → bits01 code = true →
  Forall (λ kp, bits01 kp.2 = true) (leaf_codes t code).
Proof.
  intros Hfull. revert code.
  induction Hfull as [f c|f c l r _ _ IHl IHr] using full_ind;
    intros code Hcode; simpl.
  - by constructor.
  - apply Forall_app. split; [apply IHl|apply IHr];
      by rewrite bits01_app, Hcode.
Qed.

Lemma leaf_codes_nonempty t :
  full t → is_internal t → Forall (λ kp, kp.2 ≠ "") (leaf_codes t "").
Proof.
  destruct t as [f c [l|] [r|]]; simpl; try done.
  - intros [Hl Hr] _. rewrite (leaf_codes_add l), (leaf_codes_add r) by done.
    apply Forall_app. split; apply Forall_fmap, Forall_true; by intros [].
  - by intros _ [_ []].
Qed.
End codes.

(** ** Prefix-free lists of codes *)

Section prefix_free.
Implicit Types (l : list string) (s p q : string).

Lemma prefix_free_app l1 l2 :
  prefix_free (l1 ++ l2) ↔
  prefix_free l1 ∧ prefix_free l2 ∧
  ∀ p q, p ∈ l1 → q ∈ l2 →
    String.prefix p q = false ∧ String.prefix q p = false.
Proof.
  induction l1 as [|x l1 IH]; simpl.
  - split; [intros ?; split_and!; [done..|]|naive_solver].
    intros p q []%elem_of_nil.
  - rewrite Forall_app, IH, !Forall_forall. split.
    + intros ((H1 & H2) & H3 & H4 & H5). split_and!; [done..|].
      intros p q [->|?]%elem_of_cons ?; auto.
    + intros ((H1 & H2) & H3 & H4). split_and!; [done| |done..|].
      * intros q ?. apply H4; [left|done].
      * intros p q ? ?. apply H4; [by right|done].
Qed.

Lemma prefix_free_fmap s l :
  prefix_free l → prefix_free (String.app s <$> l).
Proof.
  induction l as [|x l IH]; csimpl; [done|].
  intros [Hx Hl]. split; [|auto].
  apply Forall_fmap. eapply Forall_impl; [exact Hx|].
  intros q. simpl. by rewrite !prefix_app.
Qed.

Lemma prefix_free_lookup l i j p q :
  prefix_free l → i ≠ j → l !! i = Some p → l !! j = Some q →
  String.prefix p q = false.
Proof.
  revert i j. induction l as [|x l IH]; intros [|i] [|j]; simpl; try done.
  - intros [Hall _] _ [= ->] Hq%list_elem_of_lookup_2.
    by eapply Forall_forall in Hall as [? ?].
  - intros [Hall _] _ Hp%list_elem_of_lookup_2 [= ->].
    by eapply Forall_forall in Hall as [? ?].
  - intros [_ ?] ?. eapply IH; [done|lia].
Qed.

Lemma add_code_snd s (l : list (option ascii * string)) :
  (add_code s <$> l).*2 = String.app s <$> l.*2.
Proof. rewrite <-!list_fmap_compose. by apply list_fmap_ext. Qed.

Lemma leaf_codes_prefix_free t :
  full t → prefix_free (leaf_codes t "").*2.
Proof.
  induction 1 as [f c|f c l r Hl Hr IHl IHr] using full_ind; simpl.
  - by split.
  - change ("" +:+ "0") with "0". change ("" +:+ "1") with "1".
    rewrite (leaf_codes_add l), (leaf_codes_add r) by done.
    rewrite fmap_app, !add_code_snd.
    apply prefix_free_app. split_and!; [by apply prefix_free_fmap..|].
    intros p q (p' & -> & _)%list_elem_of_fmap (q' & -> & _)%list_elem_of_fmap.
    by rewrite !string_app_cons, !prefix_cons.
Qed.
End prefix_free.

(** ** The encoding loop and the decoder *)

Section coding.
Implicit Types (t root : HuffmanNode) (data bits : string).
Implicit Types (tbl : gmap (option ascii) string).

Lemma encode_chars_total data tbl encoding :
  (∀ c, c ∈ chars data → is_Some (tbl !! Some c)) →
  ∃ enc, encode_chars data tbl encoding = Ok enc.
Proof.
  revert encoding. induction data as [|c data IH]; intros encoding Hin.
  - simpl. eauto.
  - simpl. destruct (Hin c) as [code ->]; [left|].
    apply IH. intros c' ?. apply Hin. by right.
Qed.

(** Following the code of a leaf from an internal node emits the symbol
    of the leaf and puts the cursor back on the root. *)
Lemma decode_path t :
  full t → ∀ root c p decoded rest,
  is_internal t → (Some c, p) ∈ leaf_codes t "" →
  decode_loop root t decoded (p +:+ rest)
  = decode_loop root root (decoded +:+ str1 c) rest.
Proof.
  induction 1 as [f ch|f ch l r Hl Hr IHl IHr] using full_ind;
    intros root c p decoded rest Hint Hin.
  { by destruct Hint as [[? [=]] _]. }
  simpl in Hin.
  change ("" +:+ "0") with "0" in Hin. change ("" +:+ "1") with "1" in Hin.
  rewrite (leaf_codes_add l), (leaf_codes_add r) in Hin by done.
  apply elem_of_app in Hin as [Hin|Hin];
    apply list_elem_of_fmap in Hin as ([k p'] & [= <- ->] & Hin);
    rewrite string_app_assoc, string_app_cons; simpl.
  - destruct l as [fl cl [ll|] [lr|]]; simpl in *; try done.
    + apply (IHl root c p' decoded rest); [|done].
      split; eauto.
    + apply list_elem_of_singleton in Hin as [= <- ->]. done.
  - destruct r as [fr cr [rl|] [rr|]]; simpl in *; try done.
    + apply (IHr root c p' decoded rest); [|done].
      split; eauto.
    + apply list_elem_of_singleton in Hin as [= <- ->]. done.
Qed.

(** Encoding symbol by symbol and decoding what came out. *)
Lemma encode_decode_loop t tbl data :
  full t → is_internal t →
  (∀ c p, tbl !! Some c = Some p → (Some c, p) ∈ leaf_codes t "") →
  ∀ encoding enc, encode_chars data tbl encoding = Ok enc →
  ∃ bits, enc = encoding +:+ bits ∧
    ∀ decoded, decode_loop t t decoded bits = Ok (decoded +:+ data).
Proof.
  intros Hfull Hint Htbl.
  induction data as [|c data IH]; intros encoding enc; simpl.
  - intros [= <-]. exists "". split; [by rewrite string_app_nil_r|].
    intros decoded. simpl. by rewrite string_app_nil_r.
  - destruct (tbl !! Some c) as [code|] eqn:Hcode; [|done].
    intros (bits & -> & Hdec)%IH.
    exists (code +:+ bits). split; [by rewrite string_app_assoc|].
    intros decoded. rewrite (decode_path t Hfull t c) by auto.
    rewrite Hdec. by rewrite string_app_assoc.
Qed.
End coding.

(** ** huffman_encoding, step by step *)

Section encoding.
Implicit Types (data bits : string) (t : HuffmanNode).

Lemma huffman_encoding_nonempty data :
  data ≠ "" →
  huffman_encoding data =
    tree ← build_tree (map_frequency data);
    match tree with
    | None => Raise AttributeError
    | Some t =>
        encoding ← encode_chars data (map_codes t "" ∅) "";
        Ok (encoding, tree)
    end.
Proof.
  intros Hne. unfold huffman_encoding, huffman_encoding_traced. simpl.
  rewrite decide_False by done. simpl.
  by destruct (build_tree (map_frequency data)).
Qed.

Lemma huffman_encoding_Ok data bits tree :
  huffman_encoding data = Ok (bits, tree) →
  (data = "" ∧ bits = "" ∧ tree = None) ∨
  (data ≠ "" ∧ ∃ t, tree = Some t ∧
     build_tree (map_frequency data) = Ok (Some t) ∧
     encode_chars data (map_codes t "" ∅) "" = Ok bits).
Proof.
  destruct (decide (data = "")) as [->|Hne].
  - intros [= <- <-]. by left.
  - rewrite huffman_encoding_nonempty by done. intros H. right.
    apply bind_Ok in H as ([t|] & Hbuild & H); [|done].
    apply bind_Ok in H as (enc & Henc & [= <- <-]). eauto.
Qed.

(** What is known of the tree built for a non-empty input. *)
Lemma built_tree_facts data t :
  build_tree (map_frequency data) = Ok (Some t) →
  full t ∧ weights_ok t ∧ is_internal t ∧ NoDup (leaves t) ∧
  (∀ c, Some c ∈ leaves t ↔ c ∈ chars data) ∧
  freq t = String.length data.
Proof.
  intros Hbuild.
  assert (data ≠ "") as Hne by (by intros ->).
  apply build_tree_inv in Hbuild as (? & ? & ? & Hl & Hf);
    [|apply map_frequency_ok|by apply map_frequency_length].
  split_and!; [done..| | |].
  - rewrite Hl. apply map_frequency_leaves_NoDup.
  - intros c. rewrite Hl. apply map_frequency_leaves.
  - by rewrite Hf, map_frequency_weight.
Qed.

Lemma built_table_lookup data t k p :
  build_tree (map_frequency data) = Ok (Some t) →
  map_codes t "" ∅ !! k = Some p ↔ (k, p) ∈ leaf_codes t "".
Proof.
  intros (? & _ & _ & ? & _)%built_tree_facts. by apply map_codes_lookup.
Qed.

Lemma built_table_symbols data t c :
  build_tree (map_frequency data) = Ok (Some t) →
  is_Some (map_codes t "" ∅ !! Some c) ↔ c ∈ chars data.
Proof.
  intros Hbuild.
  pose proof (built_tree_facts _ _ Hbuild) as (Hfull & _ & _ & _ & Hl & _).
  rewrite <-Hl, <-(leaf_codes_keys t "") by done.
  rewrite list_elem_of_fmap. unfold is_Some.
  setoid_rewrite (built_table_lookup data t); [|done..].
  split.
  - intros [p ?]. by exists (Some c, p).
  - intros ([k p] & -> & ?). by exists p.
Qed.

Lemma tag_collides_false data c k :
  tag_collides data = false →
  c ∈ chars data → k + 2 < length (map_frequency data) →
  str1 c ≠ str k.
Proof.
  intros Hno Hc Hk Heq.
  assert (tag_collides data = true) as Hyes; [|congruence].
  apply existsb_exists. exists c. split; [by apply list_elem_of_In|].
  apply existsb_exists. exists k. split; [apply in_seq; lia|].
  by apply bool_decide_eq_true.
Qed.
End encoding.

(** ** Identities do not matter *)

Lemma getitem_fmap {A B : Type} (f : A → B) (l : list A) (i : nat) :
  getitem (f <$> l) i = f <$> getitem l i.
Proof. unfold getitem. rewrite list_lookup_fmap. by destruct (l !! i). Qed.

Lemma setitem_fmap {A B : Type} (f : A → B) (l : list A) (i : nat) (x : A) :
  setitem (f <$> l) i (f x) = (fmap f : list A → list B) <$> setitem l i x.
Proof.
  unfold setitem. rewrite length_fmap.
  case_decide; [|done]. simpl. by rewrite list_fmap_insert.
Qed.

(** Two comparisons that agree, through [f], on the pairs related by [R]
    drive the heap the same way. *)
Section heap_sim.
Import heapq.
Context {A B : Type} (f : A → B).
Context (ltA : A → A → res bool) (ltB : B → B → res bool).
Context (R : A → A → Prop) `{!Symmetric R}.
Context (lt_agree : ∀ a a', R a a' → ltA a a' = ltB (f a) (f a')).
Implicit Types (heap h : list A) (item newitem : A).

Lemma siftdown_loop_sim fuel heap startpos pos newitem :
  pairwise R (newitem :: delete pos heap) → pos < length heap →
  siftdown_loop ltB fuel (f <$> heap) startpos pos (f newitem)
  = (fmap f : list A → list B)
      <$> siftdown_loop ltA fuel heap startpos pos newitem.
Proof.
  revert heap pos.
  induction fuel as [|fuel IH]; intros heap pos Hpw Hpos; simpl;
    case_decide as Hlt; try done; try apply setitem_fmap.
  pose proof (parentpos_lt pos ltac:(lia)) as Hpp.
  destruct (lookup_lt_is_Some_2 heap (Nat.div2 (pos - 1)) ltac:(lia))
    as [parent Hparent].
  rewrite getitem_fmap. unfold getitem at 1 2. rewrite Hparent. simpl.
  rewrite <-lt_agree.
  2:{ destruct Hpw as [Hall _]. eapply Forall_forall in Hall; [done|].
      apply (list_elem_of_lookup_2 _ (Nat.div2 (pos - 1))).
      by rewrite list_lookup_delete_lt. }
  destruct (ltA newitem parent) as [[]|e]; simpl; [|apply setitem_fmap|done].
  rewrite setitem_fmap. unfold setitem. rewrite decide_True by done. simpl.
  apply IH; [|rewrite length_insert; lia].
  destruct Hpw as [Hall Hpw]. simpl.
  by rewrite delete_insert_move by (done || lia).
Qed.

Lemma siftdown_sim heap startpos pos :
  pairwise R heap → pos < length heap →
  _siftdown ltB (f <$> heap) startpos pos
  = (fmap f : list A → list B) <$> _siftdown ltA heap startpos pos.
Proof.
  intros Hpw Hpos. unfold _siftdown.
  destruct (lookup_lt_is_Some_2 heap pos Hpos) as [newitem Hnew].
  rewrite getitem_fmap. unfold getitem. rewrite Hnew. simpl.
  apply siftdown_loop_sim; [|done].
  by rewrite <-delete_Permutation.
Qed.

Lemma siftup_loop_sim fuel heap endpos pos :
  pairwise R (delete pos heap) →
  pos < length heap → endpos = length heap →
  siftup_loop ltB fuel (f <$> heap) endpos pos
  = prod_map (fmap f : list A → list B) id
      <$> siftup_loop ltA fuel heap endpos pos.
Proof.
  revert heap pos.
  induction fuel as [|fuel IH]; intros heap pos Hpw Hpos Hend;
    cbn -[Nat.mul]; case_decide as Hlt; try done.
  assert (∃ r : res nat,
    (if decide (2 * pos + 1 + 1 < endpos)
     then c ← getitem heap (2 * pos + 1);
          r ← getitem heap (2 * pos + 1 + 1);
          b ← ltA c r;
          Ok (if b : bool then 2 * pos + 1 else 2 * pos + 1 + 1)
     else Ok (2 * pos + 1)) = r ∧
    (if decide (2 * pos + 1 + 1 < endpos)
     then c ← getitem (f <$> heap) (2 * pos + 1);
          r ← getitem (f <$> heap) (2 * pos + 1 + 1);
          b ← ltB c r;
          Ok (if b : bool then 2 * pos + 1 else 2 * pos + 1 + 1)
     else Ok (2 * pos + 1)) = r ∧
    ∀ childpos, r = Ok childpos → pos < childpos < endpos)
    as (r & -> & -> & Hchild).
  { case_decide as Hr; [|eexists; split_and!; [done..|]; intros ? [= <-]; lia].
    destruct (lookup_lt_is_Some_2 heap (2 * pos + 1) ltac:(lia)) as [c Hc].
    destruct (lookup_lt_is_Some_2 heap (2 * pos + 1 + 1) ltac:(lia))
      as [r Hr'].
    rewrite !getitem_fmap. unfold getitem. rewrite Hc, Hr'. simpl.
    rewrite <-lt_agree.
    2:{ apply (pairwise_lookup R (delete pos heap)
                 (2 * pos) (2 * pos + 1)); [done|lia|..];
          rewrite list_lookup_delete_ge by lia; [rewrite <-Hc|rewrite <-Hr'];
          f_equal; lia. }
    eexists. split_and!; [done..|].
    destruct (ltA c r) as [[]|]; simpl; intros ? [= <-]; lia. }
  destruct r as [childpos|e]; [|done]. simpl.
  specialize (Hchild _ eq_refl).
  destruct (lookup_lt_is_Some_2 heap childpos ltac:(lia)) as [c Hc].
  rewrite getitem_fmap. unfold getitem. rewrite Hc. simpl.
  rewrite setitem_fmap. unfold setitem. rewrite decide_True by done. simpl.
  apply IH; [|rewrite ?length_insert; lia..].
  by rewrite delete_insert_move by (done || lia).
Qed.

Lemma siftup_sim heap pos :
  pairwise R heap → pos < length heap →
  _siftup ltB (f <$> heap) pos
  = (fmap f : list A → list B) <$> _siftup ltA heap pos.
Proof.
  intros Hpw Hpos. unfold _siftup.
  destruct (lookup_lt_is_Some_2 heap pos Hpos) as [newitem Hnew].
  rewrite getitem_fmap. unfold getitem at 1 2. rewrite Hnew. simpl.
  rewrite (delete_Permutation heap pos newitem) in Hpw by done.
  rewrite length_fmap, siftup_loop_sim by (done || by destruct Hpw).
  destruct (siftup_loop ltA (length heap) heap (length heap) pos)
    as [[h1 pos1]|e] eqn:Hloop; [|done]. simpl.
  apply siftup_loop_perm in Hloop as (? & ? & ? & Hperm); [|done..].
  rewrite setitem_fmap. unfold setitem. rewrite decide_True by done. simpl.
  unfold _siftdown. rewrite getitem_fmap. unfold getitem.
  rewrite list_lookup_insert_eq by done. simpl.
  apply siftdown_loop_sim; [|by rewrite length_insert].
  by rewrite delete_insert_same, Hperm.
Qed.

Lemma heappush_sim heap item :
  pairwise R (item :: heap) →
  heappush ltB (f <$> heap) (f item)
  = (fmap f : list A → list B) <$> heappush ltA heap item.
Proof.
  intros Hpw. unfold heappush.
  change [f item] with (f <$> [item]). rewrite <-fmap_app, length_fmap.
  apply siftdown_sim.
  - by rewrite <-Permutation_cons_append.
  - rewrite length_app. simpl. lia.
Qed.

Lemma heappop_sim heap :
  pairwise R heap →
  heappop ltB (f <$> heap)
  = prod_map f (fmap f : list A → list B) <$> heappop ltA heap.
Proof.
  intros Hpw. unfold heappop.
  rewrite <-(reverse_involutive heap) in Hpw.
  rewrite <-fmap_reverse.
  destruct (reverse heap) as [|lastelt rest]; [done|]. csimpl.
  rewrite reverse_cons in Hpw.
  rewrite <-fmap_reverse.
  destruct (reverse rest) as [|returnitem rest']; [done|]. csimpl.
  change (f lastelt :: (f <$> rest')) with (f <$> (lastelt :: rest')).
  rewrite siftup_sim; [by destruct (_siftup _ _ _)| |simpl; lia].
  rewrite <-Permutation_cons_append in Hpw. simpl in Hpw.
  destruct Hpw as ([_ ?]%Forall_cons & _ & ?). by split.
Qed.
End heap_sim.

(** ** The queue of entries with identities *)

Global Instance distinct_ids_sym : Symmetric distinct_ids.
Proof. intros a b. unfold distinct_ids. congruence. Qed.

Lemma tuple_lt_id_agree (a b : ientry) :
  distinct_ids a b → tuple_lt_id a b = tuple_lt a.2 b.2.
Proof.
  intros Hab. unfold tuple_lt_id, tuple_lt. cbv zeta.
  rewrite (decide_False (P := a.1 = b.1)) by done.
  case_decide; [|done].
  destruct (e_tag a.2), (e_tag b.2); try done.
Qed.

Section identities.
Implicit Types (q fs : list ientry) (next : nat) (data : string).

Lemma ientry_heappush_sim q (a : ientry) :
  pairwise distinct_ids (a :: q) →
  heapq.heappush tuple_lt q.*2 a.2
  = (fmap snd : list ientry → list entry)
      <$> heapq.heappush tuple_lt_id q a.
Proof. apply (heappush_sim _ _ _ distinct_ids), tuple_lt_id_agree. Qed.

Lemma ientry_heappop_sim q :
  pairwise distinct_ids q →
  heapq.heappop tuple_lt q.*2
  = prod_map snd (fmap snd : list ientry → list entry)
      <$> heapq.heappop tuple_lt_id q.
Proof. apply (heappop_sim _ _ _ distinct_ids), tuple_lt_id_agree. Qed.

Lemma map_frequency_at_ids next (l : list entry) :
  pairwise distinct_ids (imap (λ i e, (next + i, e)) l) ∧
  Forall (λ a : ientry, next ≤ a.1 < next + length l)
    (imap (λ i e, (next + i, e)) l) ∧
  (imap (λ i e, (next + i, e)) l).*2 = l.
Proof.
  revert next. induction l as [|x l IH]; intros next; [done|].
  rewrite imap_cons.
  rewrite (imap_ext _ (λ i e, (S next + i, e)))
    by (intros; simpl; f_equal; lia).
  destruct (IH (S next)) as (Hpw & Hall & Hsnd).
  split_and!.
  - split; [|done]. eapply Forall_impl; [exact Hall|].
    intros a ?. unfold distinct_ids. simpl in *. lia.
  - constructor; [simpl; lia|].
    eapply Forall_impl; [exact Hall|]. intros a ?. simpl in *. lia.
  - rewrite fmap_cons. by rewrite Hsnd.
Qed.

Lemma put_all_at_perm q fs q' :
  put_all_at q fs = Ok q' → q' ≡ₚ fs ++ q.
Proof.
  revert q. induction fs as [|f fs IH]; intros q; simpl.
  - by intros [= ->].
  - intros H. apply bind_Ok in H as (q1 & Hpush%heappush_perm & H).
    apply IH in H. rewrite H, Hpush. symmetry. apply Permutation_middle.
Qed.

Lemma merge_loop_at_length fuel next q p3 q' :
  merge_loop_at fuel next q p3 = Ok q' → length q' ≤ 1.
Proof.
  revert next q p3.
  induction fuel as [|fuel IH]; intros next q p3; simpl;
    case_decide as Hlen; try done; try (intros [= <-]; lia).
  intros H.
  apply bind_Ok in H as ([[ida [[fa ta] na]] q1] & _ & H).
  apply bind_Ok in H as ([[idb [[fb tb] nb]] q2] & _ & H).
  apply bind_Ok in H as (q3 & _ & H). eauto.
Qed.

Lemma put_all_at_sim q fs :
  pairwise distinct_ids (fs ++ q) →
  put_all q.*2 fs.*2
  = (fmap snd : list ientry → list entry) <$> put_all_at q fs.
Proof.
  revert q. induction fs as [|f fs IH]; intros q Hpw; csimpl; [done|].
  rewrite ientry_heappush_sim.
  2:{ simpl in Hpw.
      destruct Hpw as [[_ ?]%Forall_app Hpw]. split; [done|].
      rewrite Permutation_app_comm in Hpw.
      clear -Hpw. induction q as [|x q IH]; simpl in *; [done|].
      destruct Hpw as [[? _]%Forall_app ?]. auto. }
  destruct (heapq.heappush tuple_lt_id q f) as [q1|e] eqn:Hpush;
    [|reflexivity].
  simpl. apply IH. apply heappush_perm in Hpush.
  by rewrite Hpush, <-Permutation_middle.
Qed.

Lemma merge_loop_at_sim fuel next q p3 :
  pairwise distinct_ids q → Forall (λ a : ientry, a.1 < next) q →
  merge_loop fuel q.*2 p3
  = (fmap snd : list ientry → list entry)
      <$> merge_loop_at fuel next q p3.
Proof.
  revert next q p3.
  induction fuel as [|fuel IH]; intros next q p3 Hpw Hids; simpl;
    rewrite length_fmap;
    (destruct (decide (1 < length q)) as [Hlen|Hlen];
     [rewrite ?decide_True by done|rewrite ?decide_False by done]);
    try done.
  rewrite ientry_heappop_sim by done.
  destruct (heapq.heappop tuple_lt_id q)
    as [[[ida [[fa ta] na]] q1]|e] eqn:Hpop1; [|done].
  simpl. apply heappop_perm in Hpop1.
  rewrite Hpop1 in Hpw, Hids.
  apply pairwise_tail in Hpw. apply Forall_cons in Hids as [_ Hids].
  rewrite ientry_heappop_sim by done.
  destruct (heapq.heappop tuple_lt_id q1)
    as [[[idb [[fb tb] nb]] q2]|e] eqn:Hpop2; [|done].
  simpl. apply heappop_perm in Hpop2.
  rewrite Hpop2 in Hpw, Hids.
  apply pairwise_tail in Hpw. apply Forall_cons in Hids as [_ Hids].
  set (parent := (fa + fb, Some (str p3),
                  Node (fa + fb) None (Some na) (Some nb)) : entry).
  assert (pairwise distinct_ids ((next, parent) :: q2)) as Hpar.
  { split; [|done]. eapply Forall_impl; [exact Hids|].
    intros a ?. unfold distinct_ids. simpl in *. lia. }
  change parent with (next, parent).2 at 1.
  rewrite ientry_heappush_sim by done. subst parent.
  destruct (heapq.heappush tuple_lt_id q2 _)
    as [q3|e] eqn:Hpush; [|reflexivity].
  simpl. apply heappush_perm in Hpush.
  apply IH; rewrite Hpush; [done|].
  constructor; [simpl; lia|].
  eapply Forall_impl; [exact Hids|]. intros a ?. simpl in *. lia.
Qed.

Lemma build_tree_at_sim next fs :
  pairwise distinct_ids fs → Forall (λ a : ientry, a.1 < next) fs →
  build_tree_at next fs = build_tree fs.*2.
Proof.
  intros Hpw Hids. unfold build_tree_at, build_tree.
  rewrite length_fmap.
  destruct (decide (length fs = 0));
    [by rewrite ?decide_True by done|rewrite ?decide_False by done].
  change (@nil entry) with (@nil ientry).*2.
  rewrite put_all_at_sim by (by rewrite app_nil_r).
  destruct (put_all_at [] fs) as [q0|e] eqn:Hput; [|reflexivity].
  simpl. apply put_all_at_perm in Hput. rewrite app_nil_r in Hput.
  rewrite length_fmap, (merge_loop_at_sim _ next) by (by rewrite Hput).
  destruct (merge_loop_at (length q0) next q0 0) as [q1|e] eqn:Hloop;
    [|reflexivity].
  simpl. apply merge_loop_at_length in Hloop.
  rewrite ientry_heappop_sim.
  - by destruct (heapq.heappop tuple_lt_id q1) as [[[? ?] ?]|].
  - destruct q1 as [|x [|y q1]]; simpl in *; [done|by split|lia].
Qed.

Lemma huffman_encoding_at_sim next (data : pyval) :
  huffman_encoding_at next data = huffman_encoding data.
Proof.
  unfold huffman_encoding_at, huffman_encoding, huffman_encoding_traced.
  destruct (truthy data); [|done]. simpl.
  destruct data as [s| | |]; try done.
  unfold map_frequency_at.
  destruct (map_frequency_at_ids next (map_frequency s))
    as (Hpw & Hall & Hsnd).
  rewrite build_tree_at_sim, Hsnd; [by destruct (build_tree _)|done|].
  rewrite length_imap. eapply Forall_impl; [exact Hall|].
  intros a ?. simpl in *. lia.
Qed.
End identities.

(** ** The only exception is TypeError *)

Lemma ok_or_TypeError_bind {A B : Type} (m : res A) (k : A → res B) :
  ok_or_TypeError m → (∀ a, m = Ok a → ok_or_TypeError (k a)) →
  ok_or_TypeError (m ≫= k).
Proof. destruct m; simpl; auto. Qed.

(** With a comparison that can only raise [TypeError], the heap raises
    nothing else: every index is in range and every loop has rounds left. *)
Section heap_safe.
Import heapq.
Context {A : Type} (lt : A → A → res bool).
Context (lt_safe : ∀ a b, ok_or_TypeError (lt a b)).
Implicit Types (heap h : list A) (item newitem : A).

Lemma siftdown_loop_safe fuel heap startpos pos newitem :
  pos < length heap → pos ≤ fuel →
  ok_or_TypeError (siftdown_loop lt fuel heap startpos pos newitem).
Proof.
  revert heap pos.
  induction fuel as [|fuel IH]; intros heap pos Hpos Hfuel; simpl;
    case_decide as Hlt; try lia;
    try by (unfold setitem; rewrite decide_True by done).
  pose proof (parentpos_lt pos ltac:(lia)) as Hpp.
  destruct (lookup_lt_is_Some_2 heap (Nat.div2 (pos - 1)) ltac:(lia))
    as [parent Hparent].
  unfold getitem at 1. rewrite Hparent. simpl.
  apply ok_or_TypeError_bind; [done|]. intros b _.
  unfold setitem. destruct b; rewrite decide_True by done; [|done].
  simpl. apply IH; [rewrite length_insert|]; lia.
Qed.

Lemma siftdown_safe heap startpos pos :
  pos < length heap → ok_or_TypeError (_siftdown lt heap startpos pos).
Proof.
  intros Hpos. unfold _siftdown.
  destruct (lookup_lt_is_Some_2 heap pos Hpos) as [newitem Hnew].
  unfold getitem. rewrite Hnew. simpl.
  by apply siftdown_loop_safe.
Qed.

Lemma siftup_loop_safe fuel heap endpos pos :
  pos < length heap → endpos = length heap → endpos - pos ≤ fuel →
  ok_or_TypeError (siftup_loop lt fuel heap endpos pos).
Proof.
  revert heap pos.
  induction fuel as [|fuel IH]; intros heap pos Hpos Hend Hfuel;
    cbn -[Nat.mul]; case_decide as Hlt; try lia; try done.
  apply ok_or_TypeError_bind.
  - case_decide as Hr; [|done].
    destruct (lookup_lt_is_Some_2 heap (2 * pos + 1) ltac:(lia)) as [c Hc].
    destruct (lookup_lt_is_Some_2 heap (2 * pos + 1 + 1) ltac:(lia))
      as [r Hr'].
    unfold getitem. rewrite Hc, Hr'. simpl.
    apply ok_or_TypeError_bind; [done|]. by intros [] _.
  - intros childpos Hchild.
    assert (pos < childpos < endpos) as Hrange.
    { case_decide; [|simplify_eq; lia].
      apply bind_Ok in Hchild as (? & _ & Hchild).
      apply bind_Ok in Hchild as (? & _ & Hchild).
      apply bind_Ok in Hchild as ([] & _ & Hchild); simplify_eq; lia. }
    destruct (lookup_lt_is_Some_2 heap childpos ltac:(lia)) as [c Hc].
    unfold getitem. rewrite Hc. simpl.
    unfold setitem. rewrite decide_True by done. simpl.
    apply IH; rewrite ?length_insert; lia.
Qed.

Lemma siftup_safe heap pos :
  pos < length heap → ok_or_TypeError (_siftup lt heap pos).
Proof.
  intros Hpos. unfold _siftup.
  destruct (lookup_lt_is_Some_2 heap pos Hpos) as [newitem Hnew].
  unfold getitem at 1. rewrite Hnew. simpl.
  apply ok_or_TypeError_bind; [by apply siftup_loop_safe; lia|].
  intros [h1 pos1] (? & ? & ? & _)%siftup_loop_perm; [|done..].
  unfold setitem. rewrite decide_True by done. simpl.
  apply siftdown_safe. by rewrite length_insert.
Qed.

Lemma heappush_safe heap item : ok_or_TypeError (heappush lt heap item).
Proof.
  unfold heappush. apply siftdown_safe. rewrite length_app. simpl. lia.
Qed.

Lemma heappop_safe heap : heap ≠ [] → ok_or_TypeError (heappop lt heap).
Proof.
  intros Hne. unfold heappop.
  destruct (reverse heap) as [|lastelt rest] eqn:Hrev.
  { apply (f_equal reverse) in Hrev.
    by rewrite reverse_involutive in Hrev. }
  destruct (reverse rest) as [|returnitem rest']; [done|].
  unfold setitem. rewrite decide_True by (simpl; lia). simpl.
  apply ok_or_TypeError_bind; [apply siftup_safe; simpl; lia|done].
Qed.
End heap_safe.

Lemma tuple_lt_safe (a b : entry) : ok_or_TypeError (tuple_lt a b).
Proof. unfold tuple_lt. repeat case_match; done. Qed.

Section build_safe.
Implicit Types (q : list entry).

Lemma put_all_safe q frequencies : ok_or_TypeError (put_all q frequencies).
Proof.
  revert q. induction frequencies as [|f rest IH]; intros q; simpl; [done|].
  apply ok_or_TypeError_bind; [|auto].
  apply heappush_safe, tuple_lt_safe.
Qed.

Lemma merge_loop_safe fuel q p3 :
  length q ≤ fuel → ok_or_TypeError (merge_loop fuel q p3).
Proof.
  revert q p3. induction fuel as [|fuel IH]; intros q p3 Hfuel; simpl;
    case_decide as Hlen; try lia; try done.
  apply ok_or_TypeError_bind.
  { apply heappop_safe; [apply tuple_lt_safe|]. intros ->. simpl in *. lia. }
  intros [[[fa ta] na] q1] Hpop1%heappop_perm.
  apply ok_or_TypeError_bind.
  { apply heappop_safe; [apply tuple_lt_safe|]. intros ->.
    rewrite Hpop1 in Hlen. simpl in *. lia. }
  intros [[[fb tb] nb] q2] Hpop2%heappop_perm.
  apply ok_or_TypeError_bind; [apply heappush_safe, tuple_lt_safe|].
  intros q3 Hpush%heappush_perm. apply IH.
  rewrite Hpush. rewrite Hpop1, Hpop2 in Hfuel. simpl in *. lia.
Qed.

Lemma merge_loop_length fuel q p3 q' :
  merge_loop fuel q p3 = Ok q' → 1 ≤ length q → length q' = 1.
Proof.
  revert q p3.
  induction fuel as [|fuel IH]; intros q p3 H Hq;
    (destruct (decide (1 < length q)) as [Hlen|Hlen];
     [|rewrite merge_loop_done in H by lia; injection H as <-; lia]);
    simpl in H; rewrite decide_True in H by done; [done|].
  apply bind_Ok in H as ([[[fa ta] na] q1] & Hpop1%heappop_perm & H).
  apply bind_Ok in H as ([[[fb tb] nb] q2] & Hpop2%heappop_perm & H).
  apply bind_Ok in H as (q3 & Hpush%heappush_perm & H).
  apply IH in H; [done|]. rewrite Hpush. simpl. lia.
Qed.

Lemma build_tree_safe frequencies : ok_or_TypeError (build_tree frequencies).
Proof.
  unfold build_tree. case_decide as Hlen; [done|].
  apply ok_or_TypeError_bind; [apply put_all_safe|].
  intros q0 Hput%put_all_perm. rewrite app_nil_r in Hput.
  apply ok_or_TypeError_bind; [by apply merge_loop_safe|].
  intros q1 Hloop.
  apply ok_or_TypeError_bind; [|by intros [? ?]].
  apply heappop_safe; [apply tuple_lt_safe|]. intros ->.
  apply merge_loop_length in Hloop; [done|].
  rewrite Hput. destruct frequencies; simpl in *; lia.
Qed.
End build_safe.

(** [huffman_encoding] returns or raises [TypeError]: no [KeyError] from
    the code table, no [AttributeError] from a missing tree, and the loops
    of the embedding never use up their bounds. *)
Lemma huffman_encoding_safe (data : pyval) :
  ok_or_TypeError (huffman_encoding data).
Proof.
  destruct data as [s| |[]|]; try done.
  destruct (decide (s = "")) as [->|Hne]; [done|].
  rewrite huffman_encoding_nonempty by done.
  apply ok_or_TypeError_bind; [apply build_tree_safe|].
  intros [t|] Hbuild.
  - destruct (encode_chars_total s (map_codes t "" ∅) "") as [enc ->];
      [|done].
    intros c. by rewrite (built_table_symbols s).
  - apply build_tree_None in Hbuild.
    pose proof (map_frequency_length s Hne) as Hlen.
    rewrite Hbuild in Hlen. simpl in Hlen. lia.
Qed.

(** * The properties of the specification *)

(** ** C1: round trip *)

(** Whatever [huffman_encoding] returns decodes to the input. *)
Lemma roundtrip_of_returned (data bits : string) (tree : option HuffmanNode) :
  huffman_encoding data = Ok (bits, tree) →
  huffman_decoding bits tree = Ok data.
Proof.
  intros [(-> & -> & ->)|(Hne & t & -> & Hbuild & Henc)]%huffman_encoding_Ok;
    [done|].
  pose proof (built_tree_facts _ _ Hbuild) as (Hfull & _ & Hint & _).
  destruct (encode_decode_loop t (map_codes t "" ∅) data Hfull Hint)
    with (encoding := "") (enc := bits) as (bits' & -> & Hdec); [|done|].
  - intros c p. by rewrite (built_table_lookup data).
  - simpl. apply (Hdec "").
Qed.

(** [huffman_encoding] returns for every input whose symbols stay clear of
    the counter numerals, and the round trip holds there. *)
Lemma roundtrip_without_collision (data : string) :
  tag_collides data = false →
  ∃ bits tree, huffman_encoding data = Ok (bits, tree) ∧
    huffman_decoding bits tree = Ok data.
Proof.
  intros Hno.
  assert (∃ bits tree, huffman_encoding data = Ok (bits, tree))
    as (bits & tree & Henc); [|eauto using roundtrip_of_returned].
  destruct (decide (data = "")) as [->|Hne]; [by eexists _, _|].
  rewrite huffman_encoding_nonempty by done.
  destruct (build_tree_total (map_frequency data)) as [t Hbuild].
  - pose proof (map_frequency_length data Hne).
    intros Hnil. rewrite Hnil in *. simpl in *. lia.
  - apply map_frequency_comparable.
  - apply map_frequency_fresh. eauto using tag_collides_false.
  - rewrite Hbuild. simpl.
    destruct (encode_chars_total data (map_codes t "" ∅) "") as [enc ->];
      [|by eexists _, _].
    intros c. by rewrite (built_table_symbols data).
Qed.

(** C1.  The round trip [huffman_decoding(huffman_encoding(x)) == x] does not
    hold for the non-empty input "ab00": the call of [huffman_encoding]
    raises [TypeError] while the tree is built, so there is nothing to
    decode. *)
Theorem roundtrip_fails_on_ab00 :
  huffman_encoding "ab00" = Raise TypeError.
Proof. vm_compute. reflexivity. Qed.

(** ** C2: comparisons in the queue *)

(** On equal weights the tags decide, as strings. *)
Lemma tuple_lt_tie (a b : entry) (s t : string) :
  e_freq a = e_freq b → e_tag a = Some s → e_tag b = Some t → s ≠ t →
  tuple_lt a b = Ok (String.ltb s t).
Proof.
  intros Hf Hs Ht Hne. unfold tuple_lt.
  rewrite decide_True, Hs, Ht by done. by rewrite decide_False.
Qed.

(** A numeral starts with a digit, so an input without digit characters
    has no collision. *)
Lemma str_head_digit (k : nat) (c : ascii) (s : string) :
  str k = String c s → 48 ≤ nat_of_ascii c ≤ 57.
Proof.
  unfold str. destruct (Nat.to_uint k); simpl; intros [= <- _];
    vm_compute; split; repeat constructor.
Qed.

Lemma digit_free_no_collision (data : string) :
  (∀ c, c ∈ chars data → ¬ 48 ≤ nat_of_ascii c ≤ 57) →
  tag_collides data = false.
Proof.
  intros Hfree. apply not_true_is_false. intros Hyes.
  apply existsb_exists in Hyes as (c & Hc%list_elem_of_In & Hyes).
  apply existsb_exists in Hyes as (k & _ & Heq%bool_decide_eq_true).
  apply (Hfree c Hc). symmetry in Heq. by apply str_head_digit in Heq.
Qed.

(** C2.  The comparisons of the queue are not total on every input.  For
    "ab00" the first merged node gets the tag [str(0)], the leaf of the
    symbol '0' has the same tag and the same weight 2, the comparison of the
    two entries raises [TypeError], and so does [build_tree]: the tag that
    line 125 adds to order a parent against a leaf does not do so here. *)
Lemma comparison_error_on_ab00 :
  tuple_lt (2, Some (str 0), Node 2 None (Some (new_node 1 (Some "a"%char)))
                                         (Some (new_node 1 (Some "b"%char))))
           (leaf_entry ("0"%char, 2)) = Raise TypeError ∧
  build_tree (map_frequency "ab00") = Raise TypeError.
Proof. split; vm_compute; reflexivity. Qed.

(** Where the tags do order the entries: the tag that breaks a tie on weight
    is the symbol for a leaf entry and the numeral of the merge counter for
    a merged entry, and when no symbol of the input is the numeral of a
    counter value [k] with [k + 2] below the number of entries, no
    comparison raises and [build_tree] returns a tree. *)
Lemma build_tree_no_comparison_error (data : string) :
  data ≠ "" → tag_collides data = false →
  ∃ t, build_tree (map_frequency data) = Ok (Some t).
Proof.
  intros Hne Hno. apply build_tree_total.
  - pose proof (map_frequency_length data Hne).
    intros Hnil. rewrite Hnil in *. simpl in *. lia.
  - apply map_frequency_comparable.
  - apply map_frequency_fresh. eauto using tag_collides_false.
Qed.

Lemma build_tree_no_comparison_error_witness :
  ∃ t, build_tree (map_frequency "ABRACADABRA") = Ok (Some t).
Proof.
  apply (build_tree_no_comparison_error "ABRACADABRA");
    [discriminate|vm_compute; reflexivity].
Defined.

(** ** C3: the decoder step by step *)

Section decoder.
Implicit Types (tree node : HuffmanNode) (decoded data : string).
Implicit Types (bit : ascii) (st : HuffmanNode * string).

Lemma cursor_move_inv node bit node' :
  cursor_move node bit node' →
  (bit = "0"%char ∧ node' = default node (left_child node)) ∨
  (bit = "1"%char ∧ node' = default node (right_child node)).
Proof. destruct 1 as [? ? H|? H|? ? H|? H]; rewrite H; auto. Qed.

Lemma decode_step_0 tree node decoded :
  decode_step tree node decoded "0" =
    let node := default node (left_child node) in
    match left_child node, right_child node with
    | None, None =>
        match char node with
        | Some c => Ok (tree, decoded +:+ str1 c)
        | None => Raise TypeError
        end
    | _, _ => Ok (node, decoded)
    end.
Proof. unfold decode_step. simpl. by destruct (left_child node). Qed.

Lemma decode_step_1 tree node decoded :
  decode_step tree node decoded "1" =
    let node := default node (right_child node) in
    match left_child node, right_child node with
    | None, None =>
        match char node with
        | Some c => Ok (tree, decoded +:+ str1 c)
        | None => Raise TypeError
        end
    | _, _ => Ok (node, decoded)
    end.
Proof. unfold decode_step. simpl. by destruct (right_child node). Qed.

Lemma decode_step_relation tree node decoded bit st :
  bit = "0"%char ∨ bit = "1"%char →
  decode_step tree node decoded bit = Ok st ↔
  decoder_step tree (node, decoded) bit st.
Proof.
  intros Hbit. split.
  - destruct node as [f c l r].
    destruct Hbit as [-> | ->]; unfold decode_step; simpl.
    + destruct l as [[fl cl ll lr]|]; simpl.
      * destruct ll, lr, cl; intros [= <-];
          try (by eapply step_walk; [by apply move_left|intros [? ?]]).
        by eapply step_emit; [by apply move_left|..].
      * destruct r, c; intros [= <-];
          try (by eapply step_walk; [by apply stay_left|intros [? ?]]).
        by eapply step_emit; [by apply stay_left|..].
    + destruct r as [[fr cr rl rr]|]; simpl.
      * destruct rl, rr, cr; intros [= <-];
          try (by eapply step_walk; [by apply move_right|intros [? ?]]).
        by eapply step_emit; [by apply move_right|..].
      * destruct l, c; intros [= <-];
          try (by eapply step_walk; [by apply stay_right|intros [? ?]]).
        by eapply step_emit; [by apply stay_right|..].
  - intros Hstep.
    inversion Hstep as [? ? ? node' c Hmove [Hl Hr] Hc|
                        ? ? ? node' Hmove Hnot]; subst;
      apply cursor_move_inv in Hmove as [[-> ->]|[-> ->]];
      rewrite ?decode_step_0, ?decode_step_1; cbv zeta.
    + by rewrite Hl, Hr, Hc.
    + by rewrite Hl, Hr, Hc.
    + unfold is_leaf in Hnot.
      destruct (left_child (default node (left_child node))),
        (right_child (default node (left_child node))); try done.
      by destruct Hnot.
    + unfold is_leaf in Hnot.
      destruct (left_child (default node (right_child node))),
        (right_child (default node (right_child node))); try done.
      by destruct Hnot.
Qed.

Lemma decode_loop_relation tree data node decoded out :
  bits01 data = true →
  decode_loop tree node decoded data = Ok out ↔
  ∃ node', decoder_run tree (node, decoded) data (node', out).
Proof.
  revert node decoded.
  induction data as [|bit data IH]; intros node decoded Hbits; simpl.
  - split.
    + intros [= <-]. eexists. constructor.
    + intros [node' Hrun]. by inversion Hrun.
  - simpl in Hbits. apply andb_prop in Hbits as [Hbit Hbits].
    apply orb_prop in Hbit.
    rewrite !bool_decide_eq_true in Hbit. split.
    + intros H. apply bind_Ok in H as ([node1 decoded1] & Hstep & H).
      apply decode_step_relation in Hstep; [|done].
      apply IH in H as [node' Hrun]; [|done].
      exists node'. by econstructor.
    + intros [node' Hrun].
      inversion Hrun as [|? ? [node1 decoded1] ? ? Hstep Hrest]; subst.
      apply decode_step_relation in Hstep; [|done].
      rewrite Hstep. simpl. apply IH; eauto.
Qed.
End decoder.

(** C3, as stated, fails.  At the root of a tree with two leaves the bit "0"
    moves the cursor to the left child although that child has no children,
    and its symbol is emitted; under the step as worded the cursor would
    stay and nothing would come out. *)
Lemma claimed_step_differs :
  let t := Node 2 None (Some (new_node 1 (Some "a"%char)))
                       (Some (new_node 1 (Some "b"%char))) in
  decode_step t t "" "0" = Ok (t, "a") ∧
  claimed_decode_step t t "" "0" = Ok (t, "").
Proof. split; vm_compute; reflexivity. Qed.

(** C3, amended.  The cursor starts at the root; a bit "0" moves it to the
    left child and a bit "1" to the right child whenever that child is
    there, leaf or not; after that, a cursor on a node without children
    emits the node's symbol and goes back to the root.  [huffman_decoding]
    returns [out] exactly when these steps lead from the root with empty
    output to output [out]. *)
Theorem decoder_follows_steps (tree : HuffmanNode) (data out : string) :
  bits01 data = true →
  huffman_decoding data (Some tree) = Ok out ↔
  ∃ node, decoder_run tree (tree, "") data (node, out).
Proof. apply decode_loop_relation. Qed.

Lemma decoder_follows_steps_witness :
  let t := Node 2 None (Some (new_node 1 (Some "a"%char)))
                       (Some (new_node 1 (Some "b"%char))) in
  huffman_decoding "0110" (Some t) = Ok "abba" ↔
  ∃ node, decoder_run t (t, "") "0110" (node, "abba").
Proof.
  intros t. apply (decoder_follows_steps t "0110" "abba"). reflexivity.
Defined.

(** ** C4: the code table *)

(** C4.  In the table walked off the tree built for an input, the symbols of
    the input are keys (and the only symbols that are), every code is a
    non-empty string of "0" and "1", and the code of one key is never a
    prefix of the code of another key. *)
Theorem code_table_correct (data : string) (t : HuffmanNode) :
  build_tree (map_frequency data) = Ok (Some t) →
  let tbl := map_codes t "" ∅ in
  (∀ c, c ∈ chars data ↔ is_Some (tbl !! Some c)) ∧
  (∀ k code, tbl !! k = Some code → code ≠ "" ∧ bits01 code = true) ∧
  (∀ k1 k2 code1 code2, k1 ≠ k2 →
     tbl !! k1 = Some code1 → tbl !! k2 = Some code2 →
     String.prefix code1 code2 = false).
Proof.
  intros Hbuild tbl. subst tbl.
  pose proof (built_tree_facts _ _ Hbuild) as (Hfull & _ & Hint & _).
  split_and!.
  - intros c. by rewrite (built_table_symbols data).
  - intros k code Hin%(built_table_lookup data); [|done]. split.
    + pose proof (leaf_codes_nonempty t Hfull Hint) as Hall.
      rewrite Forall_forall in Hall. apply (Hall _ Hin).
    + pose proof (leaf_codes_bits t "" Hfull eq_refl) as Hall.
      rewrite Forall_forall in Hall. apply (Hall _ Hin).
  - intros k1 k2 code1 code2 Hne
      Hin1%(built_table_lookup data) Hin2%(built_table_lookup data);
      [|done..].
    apply list_elem_of_lookup in Hin1 as [i Hi], Hin2 as [j Hj].
    apply (prefix_free_lookup (leaf_codes t "").*2 i j).
    + by apply leaf_codes_prefix_free.
    + intros ->. congruence.
    + by rewrite list_lookup_fmap, Hi.
    + by rewrite list_lookup_fmap, Hj.
Qed.

Lemma code_table_correct_witness :
  ∃ t, let tbl := map_codes t "" ∅ in
  (∀ c, c ∈ chars "ABRACADABRA" ↔ is_Some (tbl !! Some c)) ∧
  (∀ k code, tbl !! k = Some code → code ≠ "" ∧ bits01 code = true) ∧
  (∀ k1 k2 code1 code2, k1 ≠ k2 →
     tbl !! k1 = Some code1 → tbl !! k2 = Some code2 →
     String.prefix code1 code2 = false).
Proof.
  eexists. apply (code_table_correct "ABRACADABRA"). vm_compute. reflexivity.
Defined.

(** ** C5: one distinct symbol *)

Section single_symbol.
Implicit Types (data : string) (c : ascii) (n v : nat).

Lemma count_chars_single data c v :
  (∀ x, x ∈ chars data → x = c) →
  count_chars data [(c, v)] = [(c, v + String.length data)].
Proof.
  revert v. induction data as [|a data IH]; intros v Hall; simpl.
  - by rewrite Nat.add_0_r.
  - rewrite (Hall a) by left. rewrite decide_True by done.
    rewrite IH by (intros x ?; apply Hall; by right).
    do 2 f_equal. lia.
Qed.

Lemma map_frequency_single data c :
  data ≠ "" → (∀ x, x ∈ chars data → x = c) →
  map_frequency data = [dummy_entry; leaf_entry (c, String.length data)].
Proof.
  intros Hne Hall. rewrite map_frequency_unfold by done.
  destruct data as [|a data]; [done|]. simpl.
  rewrite (Hall a) by left.
  rewrite (count_chars_single _ c) by (intros x ?; apply Hall; by right).
  done.
Qed.

(** The queue holds the dummy entry and the one leaf; they differ in
    weight, and the merged node goes into an empty queue. *)
Lemma build_tree_single c n :
  0 < n →
  build_tree [dummy_entry; leaf_entry (c, n)]
  = Ok (Some (Node n None (Some (new_node 0 None))
                   (Some (new_node n (Some c))))).
Proof. destruct n; [lia|reflexivity]. Qed.

Lemma encode_chars_single data c tbl encoding :
  (∀ x, x ∈ chars data → x = c) → tbl !! Some c = Some "1" →
  encode_chars data tbl encoding
  = Ok (encoding +:+ repeat_char (String.length data) "1").
Proof.
  intros Hall Hc. revert encoding.
  induction data as [|a data IH]; intros encoding; simpl.
  - by rewrite string_app_nil_r.
  - rewrite (Hall a) by left. rewrite Hc.
    rewrite IH by (intros x ?; apply Hall; by right).
    by rewrite string_app_assoc.
Qed.
End single_symbol.

(** C5.  For an input made of one symbol [c], [map_frequency] returns the
    dummy entry (weight 0, no symbol) followed by the entry of [c]; the
    encoding is the bit "1" once per input symbol, and decoding it with the
    returned tree gives the input back. *)
Theorem single_symbol_case (data : string) (c : ascii) :
  data ≠ "" → (∀ x, x ∈ chars data → x = c) →
  let n := String.length data in
  let tree := Node n None (Some (new_node 0 None))
                          (Some (new_node n (Some c))) in
  map_frequency data = [dummy_entry; leaf_entry (c, n)] ∧
  huffman_encoding data = Ok (repeat_char n "1", Some tree) ∧
  huffman_decoding (repeat_char n "1") (Some tree) = Ok data.
Proof.
  intros Hne Hall n tree.
  assert (huffman_encoding data = Ok (repeat_char n "1", Some tree)) as Henc.
  { rewrite huffman_encoding_nonempty, (map_frequency_single _ c) by done.
    rewrite build_tree_single by (destruct data; [done|simpl; lia]).
    simpl. rewrite (encode_chars_single _ c); [done..|].
    by rewrite lookup_insert_eq. }
  split_and!; [by apply map_frequency_single|done|].
  by apply roundtrip_of_returned.
Qed.

Lemma single_symbol_case_witness :
  map_frequency "aaaaaa" = [dummy_entry; leaf_entry ("a"%char, 6)] ∧
  huffman_encoding "aaaaaa"
  = Ok ("111111",
        Some (Node 6 None (Some (new_node 0 None))
                          (Some (new_node 6 (Some "a"%char))))) ∧
  huffman_decoding "111111"
    (Some (Node 6 None (Some (new_node 0 None))
                       (Some (new_node 6 (Some "a"%char)))))
  = Ok "aaaaaa".
Proof.
  apply (single_symbol_case "aaaaaa" "a"); [discriminate|].
  intros x Hx. simpl in Hx. set_solver.
Defined.

(** ** C6: weights *)

(** C6.  In a tree returned by [huffman_encoding] every node with children
    weighs the sum of its two children, and the root weighs the length of
    the input. *)
Theorem weight_invariant (data bits : string) (t : HuffmanNode) :
  huffman_encoding data = Ok (bits, Some t) →
  weights_ok t ∧ freq t = String.length data.
Proof.
  intros [(_ & _ & [=])|(_ & t' & [= <-] & Hbuild & _)]%huffman_encoding_Ok.
  by apply built_tree_facts in Hbuild as (_ & ? & _ & _ & _ & ?).
Qed.

Lemma weight_invariant_witness :
  ∃ t, weights_ok t ∧ freq t = String.length "ABRACADABRA".
Proof.
  eexists. eapply (weight_invariant "ABRACADABRA"). vm_compute. reflexivity.
Defined.

(** ** C7: all-or-nothing children *)

Lemma full_reachable (t n : HuffmanNode) : full t → reachable t n → full n.
Proof.
  intros Hfull. induction 1 as [|n l _ IH Hl|n r _ IH Hr]; [done|..];
    destruct n as [f c [l'|] [r'|]]; simpl in *; simplify_eq; tauto.
Qed.

Lemma full_leaf_or_internal (n : HuffmanNode) :
  full n → is_leaf n ∨ is_internal n.
Proof.
  destruct n as [f c [l|] [r|]]; simpl; try done.
  - right. split; eauto.
  - by left.
Qed.

(** C7.  Every node reachable from a tree returned by [huffman_encoding] has
    both children or none. *)
Theorem all_or_nothing (data bits : string) (t n : HuffmanNode) :
  huffman_encoding data = Ok (bits, Some t) →
  reachable t n → is_leaf n ∨ is_internal n.
Proof.
  intros [(_ & _ & [=])|(_ & t' & [= <-] & Hbuild & _)]%huffman_encoding_Ok.
  intros Hreach. apply full_leaf_or_internal.
  apply built_tree_facts in Hbuild as (? & _). by eapply full_reachable.
Qed.

Lemma all_or_nothing_witness :
  ∃ t, ∀ n, reachable t n → is_leaf n ∨ is_internal n.
Proof.
  eexists. intros n. eapply (all_or_nothing "ab ba"). vm_compute. reflexivity.
Defined.

(** ** C8: no missing code *)

(** C8.  Every symbol of the input is a key of the table walked off the tree
    built for it, and the encoding loop runs through without [KeyError]. *)
Theorem no_missing_code (data : string) (t : HuffmanNode) :
  build_tree (map_frequency data) = Ok (Some t) →
  (∀ c, c ∈ chars data → is_Some (map_codes t "" ∅ !! Some c)) ∧
  ∃ encoding, encode_chars data (map_codes t "" ∅) "" = Ok encoding.
Proof.
  intros Hbuild.
  assert (∀ c, c ∈ chars data → is_Some (map_codes t "" ∅ !! Some c))
    as Hkeys.
  { intros c. by rewrite (built_table_symbols data). }
  split; [done|]. by apply encode_chars_total.
Qed.

Lemma no_missing_code_witness :
  ∃ t, (∀ c, c ∈ chars "Mississippi" →
          is_Some (map_codes t "" ∅ !! Some c)) ∧
       ∃ encoding,
         encode_chars "Mississippi" (map_codes t "" ∅) "" = Ok encoding.
Proof.
  eexists. apply (no_missing_code "Mississippi"). vm_compute. reflexivity.
Defined.

(** ** C9: determinism *)


(** In particular the two trees have the same shape. *)
Lemma huffman_encoding_same_shape (data : pyval) (next1 next2 : nat)
    (bits1 bits2 : string) (tree1 tree2 : option HuffmanNode) :
  huffman_encoding_at next1 data = Ok (bits1, tree1) →
  huffman_encoding_at next2 data = Ok (bits2, tree2) →
  bits1 = bits2 ∧ shape_of <$> tree1 = shape_of <$> tree2.
Proof.
  rewrite !huffman_encoding_at_sim. intros -> [= -> ->]. done.
Qed.

(** ** C10: empty input *)

(** C10.  For a falsy argument (the empty string, [None], [False], the empty
    dict) [huffman_encoding] returns [('', None)] and has called none of its
    helpers. *)
Theorem empty_input (data : pyval) :
  truthy data = false →
  huffman_encoding_traced data = ([], Ok ("", None)) ∧
  huffman_encoding data = Ok ("", None).
Proof.
  intros Hfalsy. unfold huffman_encoding, huffman_encoding_traced.
  by rewrite Hfalsy.
Qed.

Lemma empty_input_witness :
  huffman_encoding_traced "" = ([], Ok ("", None)) ∧
  huffman_encoding "" = Ok ("", None).
Proof. apply (empty_input ""). reflexivity. Defined.


(** * Further properties *)

(** ** map_frequency, symbol by symbol *)

Section frequency_spec.
Implicit Types (d : list (ascii * nat)) (c : ascii) (data : string).
Implicit Types (l : list ascii).

Lemma occurrences_cons c a data :
  occurrences c (String a data)
  = (if decide (a = c) then 1 else 0) + occurrences c data.
Proof.
  unfold occurrences. simpl. rewrite filter_cons. by case_decide.
Qed.

Lemma filter_distinct_absorb c (keys l : list ascii) :
  c ∈ keys →
  filter (λ x, x ∉ keys) (filter (λ x, x ≠ c) l)
  = filter (λ x, x ∉ keys) l.
Proof.
  intros Hc. rewrite list_filter_filter. apply list_filter_iff.
  intros x. split; [by intros [? _]|]. intros Hx. split; [done|].
  by intros ->.
Qed.

Lemma filter_distinct_snoc c (keys l : list ascii) :
  filter (λ x, x ∉ keys ++ [c]) l
  = filter (λ x, x ∉ keys) (filter (λ x, x ≠ c) l).
Proof.
  rewrite list_filter_filter. apply list_filter_iff.
  intros x. rewrite elem_of_app, list_elem_of_singleton. tauto.
Qed.

Lemma dict_incr_old d c :
  c ∈ d.*1 → NoDup d.*1 →
  dict_incr d c
  = (λ kv : ascii * nat,
       (kv.1, kv.2 + (if decide (c = kv.1) then 1 else 0))) <$> d.
Proof.
  induction d as [|[k v] d IH]; csimpl; [by intros ?%elem_of_nil|].
  intros Hin [Hk Hnd]%NoDup_cons. case_decide as Hkc.
  - subst k. rewrite decide_True by done. f_equal.
    symmetry. etrans; [|apply list_fmap_id].
    apply list_fmap_ext. intros i [k' v'] Hi. simpl.
    rewrite decide_False; [by rewrite Nat.add_0_r|].
    intros ->. apply Hk. apply list_elem_of_lookup_2 in Hi.
    by apply (list_elem_of_fmap_2 fst) in Hi.
  - rewrite decide_False by done. rewrite Nat.add_0_r. f_equal.
    apply IH; [|done]. apply elem_of_cons in Hin as [?|?]; [congruence|done].
Qed.

Lemma dict_incr_new d c :
  c ∉ d.*1 → dict_incr d c = d ++ [(c, 1)].
Proof.
  induction d as [|[k v] d IH]; csimpl; [done|].
  intros Hin. rewrite not_elem_of_cons in Hin. destruct Hin as [? ?].
  rewrite decide_False by done. f_equal. auto.
Qed.

(** The dict after the counting loop: the counts it had, raised by the
    occurrences in [data], then the new symbols in the order in which
    they first occur. *)
Lemma count_chars_spec data d :
  NoDup d.*1 →
  count_chars data d
  = ((λ kv : ascii * nat, (kv.1, kv.2 + occurrences kv.1 data)) <$> d)
    ++ ((λ c, (c, occurrences c data))
          <$> filter (λ x, x ∉ d.*1) (distinct (chars data))).
Proof.
  revert d. induction data as [|a data IH]; intros d Hnd.
  - simpl. rewrite app_nil_r. symmetry. etrans; [|apply list_fmap_id].
    apply list_fmap_ext. intros i [k v] _. simpl.
    unfold occurrences. simpl. by rewrite Nat.add_0_r.
  - cbn [count_chars chars distinct].
    rewrite IH by (by apply dict_incr_NoDup).
    destruct (decide (a ∈ d.*1)) as [Hin|Hin].
    + rewrite dict_incr_old by done.
      rewrite <-list_fmap_compose.
      assert ((dict_incr d a).*1 = d.*1) as Hkeys.
      { rewrite dict_incr_old by done. rewrite <-list_fmap_compose.
        by apply list_fmap_ext. }
      rewrite dict_incr_old in Hkeys by done.
      rewrite Hkeys.
      rewrite filter_cons, decide_False by (by intros []).
      rewrite filter_distinct_absorb by done.
      f_equal.
      * apply list_fmap_ext. intros i [k v] _. simpl.
        rewrite occurrences_cons. f_equal. lia.
      * apply list_fmap_ext. intros i c Hi. f_equal.
        rewrite occurrences_cons, decide_False; [done|].
        intros ->. apply list_elem_of_lookup_2 in Hi.
        apply list_elem_of_filter in Hi as [Hc _]. done.
    + rewrite dict_incr_new by done.
      rewrite fmap_app, <-(assoc_L (++)). csimpl.
      rewrite filter_cons, decide_True by done. csimpl.
      rewrite (list_filter_iff _ (λ x, x ∉ d.*1 ++ [a]))
        by (intros x; by rewrite fmap_app).
      rewrite filter_distinct_snoc.
      f_equal; [|f_equal].
      * apply list_fmap_ext. intros i [k v] Hi. simpl.
        rewrite occurrences_cons, decide_False; [done|].
        intros ->. apply Hin. apply list_elem_of_lookup_2 in Hi.
        by apply (list_elem_of_fmap_2 fst) in Hi.
      * by rewrite occurrences_cons, decide_True.
      * apply list_fmap_ext. intros i c Hi. f_equal.
        rewrite occurrences_cons, decide_False; [done|].
        intros ->. apply list_elem_of_lookup_2 in Hi.
        apply list_elem_of_filter in Hi as [_ Hi].
        apply list_elem_of_filter in Hi as [Hi _]. done.
Qed.

Lemma count_chars_distinct data :
  count_chars data []
  = (λ c, (c, occurrences c data)) <$> distinct (chars data).
Proof.
  rewrite count_chars_spec by constructor. csimpl. f_equal.
  induction (distinct (chars data)) as [|x l IH]; [done|].
  rewrite filter_cons, decide_True by apply not_elem_of_nil.
  by rewrite IH.
Qed.
End frequency_spec.

(** X1.  [map_frequency] lists the distinct symbols of the input in the order of
    their first occurrence, each with the number of its occurrences as
    weight and a fresh leaf; when there is exactly one distinct symbol the
    dummy entry comes first. *)
Theorem map_frequency_spec (data : string) :
  data ≠ "" →
  map_frequency data
  = (if decide (length (distinct (chars data)) = 1)
     then [dummy_entry] else [])
    ++ ((λ c, (occurrences c data, Some (str1 c),
               new_node (occurrences c data) (Some c)))
          <$> distinct (chars data)).
Proof.
  intros Hne. rewrite map_frequency_unfold by done.
  rewrite count_chars_distinct, length_fmap, <-list_fmap_compose.
  done.
Qed.

Lemma map_frequency_spec_witness :
  map_frequency "abca"
  = (if decide (length (distinct (chars "abca")) = 1)
     then [dummy_entry] else [])
    ++ ((λ c, (occurrences c "abca", Some (str1 c),
               new_node (occurrences c "abca") (Some c)))
          <$> distinct (chars "abca")).
Proof. apply (map_frequency_spec "abca"). discriminate. Defined.

(** ** The distinct symbols *)

Section distinct.
Implicit Types (l : list ascii) (c : ascii) (data : string).

Lemma elem_of_distinct l c : c ∈ distinct l ↔ c ∈ l.
Proof.
  induction l as [|a l IH]; [done|]. simpl.
  rewrite !elem_of_cons, list_elem_of_filter, IH.
  destruct (decide (c = a)); naive_solver.
Qed.

Lemma NoDup_distinct l : NoDup (distinct l).
Proof.
  induction l as [|a l IH]; simpl; [constructor|].
  apply NoDup_cons. split; [|by apply NoDup_filter].
  rewrite list_elem_of_filter. by intros [[] _].
Qed.

Lemma map_frequency_leaves_distinct data :
  data ≠ "" →
  queue_leaves (map_frequency data)
  = (if decide (length (distinct (chars data)) = 1) then [None] else [])
    ++ (Some <$> distinct (chars data)).
Proof.
  intros Hne. rewrite map_frequency_unfold by done.
  unfold queue_leaves. rewrite bind_app.
  fold (queue_leaves (leaf_entry <$> count_chars data [])).
  rewrite leaf_entries_leaves, count_chars_distinct, length_fmap.
  rewrite <-list_fmap_compose. f_equal.
  - by case_decide.
  - rewrite <-list_fmap_compose. by apply list_fmap_ext.
Qed.

Lemma map_frequency_length_distinct data :
  data ≠ "" →
  length (map_frequency data)
  = (if decide (length (distinct (chars data)) = 1) then 1 else 0)
    + length (distinct (chars data)).
Proof.
  intros Hne. rewrite map_frequency_unfold by done.
  rewrite count_chars_distinct, length_app, !length_fmap. by case_decide.
Qed.
End distinct.

(** X2.  The leaves of the returned tree are the distinct symbols of the input,
    one leaf each, and the dummy leaf when there is exactly one distinct
    symbol. *)
Theorem tree_leaves_are_symbols (data bits : string) (t : HuffmanNode) :
  huffman_encoding data = Ok (bits, Some t) →
  leaves t ≡ₚ
    (if decide (length (distinct (chars data)) = 1) then [None] else [])
    ++ (Some <$> distinct (chars data)).
Proof.
  intros [(_ & _ & [=])|(Hne & t' & [= <-] & Hbuild & _)]%huffman_encoding_Ok.
  apply build_tree_inv in Hbuild as (_ & _ & _ & Hl & _);
    [|apply map_frequency_ok|by apply map_frequency_length].
  by rewrite Hl, map_frequency_leaves_distinct.
Qed.

Lemma tree_leaves_are_symbols_witness :
  ∃ t, leaves t ≡ₚ
    (if decide (length (distinct (chars "Mississippi")) = 1)
     then [None] else [])
    ++ (Some <$> distinct (chars "Mississippi")).
Proof.
  eexists. eapply (tree_leaves_are_symbols "Mississippi").
  vm_compute. reflexivity.
Defined.

(** ** The size of the code table *)

Lemma map_codes_list_to_map (t : HuffmanNode) :
  full t → NoDup (leaves t) →
  map_codes t "" ∅ = list_to_map (leaf_codes t "").
Proof.
  intros Hfull Hnd. apply map_eq. intros k.
  apply option_eq. intros p.
  rewrite map_codes_lookup by done.
  apply elem_of_list_to_map. by rewrite leaf_codes_keys.
Qed.

(** X3.  The code table has one entry for each leaf of the tree: as many entries
    as the input has distinct symbols, and one more, the dummy's, when the
    input has exactly one distinct symbol. *)
Theorem code_table_size (data : string) (t : HuffmanNode) :
  build_tree (map_frequency data) = Ok (Some t) →
  size (map_codes t "" ∅)
  = (if decide (length (distinct (chars data)) = 1) then 1 else 0)
    + length (distinct (chars data)).
Proof.
  intros Hbuild.
  assert (data ≠ "") as Hne by (by intros ->).
  pose proof (built_tree_facts _ _ Hbuild) as (Hfull & _ & _ & Hnd & _).
  rewrite map_codes_list_to_map by done.
  rewrite map_size_list_to_map by (by rewrite leaf_codes_keys).
  rewrite <-(length_fmap fst), leaf_codes_keys by done.
  apply build_tree_inv in Hbuild as (_ & _ & _ & Hl & _);
    [|apply map_frequency_ok|by apply map_frequency_length].
  rewrite Hl, map_frequency_leaves_distinct by done.
  rewrite length_app, length_fmap. by case_decide.
Qed.

Lemma code_table_size_witness :
  ∃ t, size (map_codes t "" ∅)
  = (if decide (length (distinct (chars "aaaaaa")) = 1) then 1 else 0)
    + length (distinct (chars "aaaaaa")).
Proof.
  eexists. apply (code_table_size "aaaaaa"). vm_compute. reflexivity.
Defined.

(** ** What huffman_encoding returns, and when it raises *)

(** X4.  Whenever [huffman_encoding] returns, for the empty input too, decoding
    the bits with the tree of the same call gives the input back. *)
Theorem decoding_inverts_encoding (data bits : string)
    (tree : option HuffmanNode) :
  huffman_encoding data = Ok (bits, tree) →
  huffman_decoding bits tree = Ok data.
Proof. apply roundtrip_of_returned. Qed.

Lemma decoding_inverts_encoding_witness :
  ∃ bits tree, huffman_decoding bits tree = Ok "Huffman coding".
Proof.
  eexists _, _. apply (decoding_inverts_encoding "Huffman coding").
  vm_compute. reflexivity.
Defined.

(** X5.  On a string without digit characters [huffman_encoding] returns, and
    the round trip holds. *)
Theorem digit_free_roundtrip (data : string) :
  (∀ c, c ∈ chars data → ¬ is_digit c) →
  ∃ bits tree, huffman_encoding data = Ok (bits, tree) ∧
    huffman_decoding bits tree = Ok data.
Proof.
  intros Hfree.
  by apply roundtrip_without_collision, digit_free_no_collision.
Qed.

Lemma digit_free_roundtrip_witness :
  ∃ bits tree, huffman_encoding "Sally sells seashells" = Ok (bits, tree) ∧
    huffman_decoding bits tree = Ok "Sally sells seashells".
Proof.
  apply (digit_free_roundtrip "Sally sells seashells").
  intros c Hc. unfold is_digit.
  simpl in Hc. repeat (apply elem_of_cons in Hc as [->|Hc]; [vm_compute; lia|]).
  by apply elem_of_nil in Hc.
Defined.

(** X6.  When [huffman_encoding] raises on a string, the exception is
    [TypeError], the string has at least three distinct symbols and one of
    its symbols is a digit. *)
Theorem encoding_raises_only_with_digits (data : string) (e : exn) :
  huffman_encoding data = Raise e →
  e = TypeError ∧ 3 ≤ length (distinct (chars data)) ∧
  ∃ c, c ∈ chars data ∧ is_digit c.
Proof.
  intros Hraise.
  pose proof (huffman_encoding_safe data) as Hsafe.
  rewrite Hraise in Hsafe. simpl in Hsafe. split; [done|].
  assert (data ≠ "") as Hne by (by intros ->).
  destruct (tag_collides data) eqn:Hcol.
  - apply existsb_exists in Hcol as (c & Hc%list_elem_of_In & Hcol).
    apply existsb_exists in Hcol as (k & Hk%in_seq & Heq%bool_decide_eq_true).
    split.
    + rewrite map_frequency_length_distinct in Hk by done.
      case_decide; lia.
    + exists c. split; [done|]. symmetry in Heq.
      by apply str_head_digit in Heq.
  - apply roundtrip_without_collision in Hcol as (? & ? & ? & _). congruence.
Qed.

Lemma encoding_raises_only_with_digits_witness :
  TypeError = TypeError ∧ 3 ≤ length (distinct (chars "ab00")) ∧
  ∃ c, c ∈ chars "ab00" ∧ is_digit c.
Proof.
  apply (encoding_raises_only_with_digits "ab00"). vm_compute. reflexivity.
Defined.

Section encoded_bits.
Implicit Types (data encoding enc p : string).
Implicit Types (tbl : gmap (option ascii) string).

Lemma string_length_app s p :
  String.length (s +:+ p) = String.length s + String.length p.
Proof.
  induction s as [|a s IH]; [done|].
  rewrite string_app_cons. simpl. by rewrite IH.
Qed.

Lemma encode_chars_bits data tbl encoding enc :
  (∀ c p, tbl !! Some c = Some p → bits01 p = true) →
  bits01 encoding = true →
  encode_chars data tbl encoding = Ok enc → bits01 enc = true.
Proof.
  intros Htbl. revert encoding.
  induction data as [|c data IH]; intros encoding Hacc; simpl.
  - by intros [= <-].
  - destruct (tbl !! Some c) as [p|] eqn:Hp; [|done].
    apply IH. rewrite bits01_app, Hacc. simpl. eauto.
Qed.

Lemma encode_chars_length data tbl encoding enc lo hi :
  (∀ c p, tbl !! Some c = Some p → lo ≤ String.length p ≤ hi) →
  encode_chars data tbl encoding = Ok enc →
  String.length encoding + String.length data * lo ≤ String.length enc ∧
  String.length enc ≤ String.length encoding + String.length data * hi.
Proof.
  intros Htbl. revert encoding.
  induction data as [|c data IH]; intros encoding; simpl.
  - intros [= <-]. lia.
  - destruct (tbl !! Some c) as [p|] eqn:Hp; [|done].
    intros Henc%IH. rewrite string_length_app in Henc.
    apply Htbl in Hp. lia.
Qed.

Lemma leaves_nonempty (t : HuffmanNode) : 0 < length (leaves t).
Proof.
  revert t. fix IH 1. intros [f c [l|] [r|]]; simpl; try lia.
  rewrite length_app. specialize (IH l). lia.
Qed.
End encoded_bits.

(** A code is shorter than the tree has leaves. *)
Lemma leaf_codes_depth (t : HuffmanNode) :
  full t →
  Forall (λ kp, String.length kp.2 + 1 ≤ length (leaves t)) (leaf_codes t "").
Proof.
  induction 1 as [f c|f c l r Hl Hr IHl IHr] using full_ind; simpl.
  - repeat constructor.
  - change ("" +:+ "0") with "0". change ("" +:+ "1") with "1".
    rewrite (leaf_codes_add l), (leaf_codes_add r) by done.
    rewrite length_app.
    pose proof (leaves_nonempty l). pose proof (leaves_nonempty r).
    apply Forall_app. split; apply Forall_fmap.
    + eapply Forall_impl; [exact IHl|]. intros [k p] ?.
      unfold add_code. simpl in *. rewrite string_length_app. simpl. lia.
    + eapply Forall_impl; [exact IHr|]. intros [k p] ?.
      unfold add_code. simpl in *. rewrite string_length_app. simpl. lia.
Qed.

(** X7.  The bit string [huffman_encoding] returns is made of the characters "0"
    and "1" only, so [int(bit)] in the decoder never raises on it. *)
Theorem encoding_is_bits (data bits : string) (tree : option HuffmanNode) :
  huffman_encoding data = Ok (bits, tree) → bits01 bits = true.
Proof.
  intros [(_ & -> & _)|(Hne & t & -> & Hbuild & Henc)]%huffman_encoding_Ok;
    [done|].
  apply (encode_chars_bits data (map_codes t "" ∅) "" bits);
    [|done|exact Henc].
  intros c p Hp%(built_table_lookup data); [|done].
  pose proof (built_tree_facts _ _ Hbuild) as (Hfull & _).
  pose proof (leaf_codes_bits t "" Hfull eq_refl) as Hall.
  rewrite Forall_forall in Hall. apply (Hall _ Hp).
Qed.

Lemma encoding_is_bits_witness :
  ∃ bits, bits01 bits = true.
Proof.
  eexists. eapply (encoding_is_bits "abc123Huffman coding").
  vm_compute. reflexivity.
Defined.

(** X8.  The encoding has at least one bit for each symbol of the input, and for
    each symbol fewer bits than the tree has leaves. *)
Theorem encoding_length_bounds (data bits : string) (t : HuffmanNode) :
  huffman_encoding data = Ok (bits, Some t) →
  String.length data ≤ String.length bits ∧
  String.length bits ≤ String.length data * (length (leaves t) - 1).
Proof.
  intros [(_ & _ & [=])|(Hne & t' & [= <-] & Hbuild & Henc)]
    %huffman_encoding_Ok.
  pose proof (built_tree_facts _ _ Hbuild) as (Hfull & _ & Hint & _).
  apply (encode_chars_length _ _ _ _ 1 (length (leaves t) - 1)) in Henc;
    [simpl in Henc; lia|].
  intros c p Hp%(built_table_lookup data); [|done].
  pose proof (leaf_codes_nonempty t Hfull Hint) as Hlo.
  pose proof (leaf_codes_depth t Hfull) as Hhi.
  rewrite Forall_forall in Hlo, Hhi.
  specialize (Hlo _ Hp). specialize (Hhi _ Hp). simpl in *.
  destruct p; [done|]. simpl in *. lia.
Qed.

Lemma encoding_length_bounds_witness :
  ∃ bits t,
    String.length "ABRACADABRA" ≤ String.length bits ∧
    String.length bits ≤ String.length "ABRACADABRA" * (length (leaves t) - 1).
Proof.
  eexists _, _. apply (encoding_length_bounds "ABRACADABRA").
  vm_compute. reflexivity.
Defined.

(** ** One table for every message over the alphabet *)

(** X9.  The table and the tree built for [data] encode and decode every message
    made of symbols of [data], not only [data] itself. *)
Theorem table_decodes_any_message (data message : string) (t : HuffmanNode) :
  build_tree (map_frequency data) = Ok (Some t) →
  (∀ c, c ∈ chars message → c ∈ chars data) →
  ∃ bits, encode_chars message (map_codes t "" ∅) "" = Ok bits ∧
    huffman_decoding bits (Some t) = Ok message.
Proof.
  intros Hbuild Hsub.
  pose proof (built_tree_facts _ _ Hbuild) as (Hfull & _ & Hint & _).
  destruct (encode_chars_total message (map_codes t "" ∅) "") as [bits Henc].
  { intros c Hc. rewrite (built_table_symbols data) by done. auto. }
  exists bits. split; [done|].
  destruct (encode_decode_loop t (map_codes t "" ∅) message Hfull Hint)
    with (encoding := "") (enc := bits) as (bits' & -> & Hdec); [|done|].
  - intros c p. by rewrite (built_table_lookup data).
  - simpl. apply (Hdec "").
Qed.

Lemma table_decodes_any_message_witness :
  ∃ t bits, encode_chars "BARCA" (map_codes t "" ∅) "" = Ok bits ∧
    huffman_decoding bits (Some t) = Ok "BARCA".
Proof.
  eexists. apply (table_decodes_any_message "ABRACADABRA" "BARCA").
  - vm_compute. reflexivity.
  - intros c Hc. simpl in *. set_solver.
Defined.

(** X10.  Two messages with the same encoding under the table of one tree are
    the same message. *)
Theorem code_uniquely_decodable (data m1 m2 bits : string)
    (t : HuffmanNode) :
  build_tree (map_frequency data) = Ok (Some t) →
  encode_chars m1 (map_codes t "" ∅) "" = Ok bits →
  encode_chars m2 (map_codes t "" ∅) "" = Ok bits →
  m1 = m2.
Proof.
  intros Hbuild H1 H2.
  pose proof (built_tree_facts _ _ Hbuild) as (Hfull & _ & Hint & _).
  assert (∀ m, encode_chars m (map_codes t "" ∅) "" = Ok bits →
               decode_loop t t "" bits = Ok m) as Hdec.
  { intros m Hm.
    destruct (encode_decode_loop t (map_codes t "" ∅) m Hfull Hint)
      with (encoding := "") (enc := bits) as (bits' & -> & Hdec); [|done|].
    - intros c p. by rewrite (built_table_lookup data).
    - apply (Hdec ""). }
  apply Hdec in H1, H2. congruence.
Qed.

Lemma code_uniquely_decodable_witness : "abba" = "abba".
Proof.
  apply (code_uniquely_decodable "ab" "abba" "abba" "0110"
           (Node 2 None (Some (new_node 1 (Some "a"%char)))
                        (Some (new_node 1 (Some "b"%char)))));
    vm_compute; reflexivity.
Defined.

(** ** The decoder on arbitrary input *)

Section decoder_run.
Implicit Types (tree node : HuffmanNode) (decoded data out : string).
Implicit Types (bit : ascii).

Lemma decode_loop_run tree node decoded data :
  decode_loop tree node decoded data
  = snd <$> decode_run tree node decoded data.
Proof.
  revert node decoded. induction data as [|bit data IH];
    intros node decoded; simpl; [done|].
  destruct (decode_step tree node decoded bit) as [[node' decoded']|e];
    simpl; [apply IH|done].
Qed.

Lemma decode_run_app tree node decoded data1 data2 :
  decode_run tree node decoded (data1 +:+ data2)
  = st ← decode_run tree node decoded data1;
    decode_run tree st.1 st.2 data2.
Proof.
  revert node decoded. induction data1 as [|bit data1 IH];
    intros node decoded; [done|].
  rewrite string_app_cons. simpl.
  destruct (decode_step tree node decoded bit) as [[node' decoded']|e];
    simpl; [apply IH|done].
Qed.

Lemma decode_loop_Ok_run tree node decoded data out :
  decode_loop tree node decoded data = Ok out →
  ∃ node', decode_run tree node decoded data = Ok (node', out).
Proof.
  rewrite decode_loop_run.
  destruct (decode_run tree node decoded data) as [[node' out']|e];
    [|done].
  intros [= <-]. eauto.
Qed.



Lemma int_of_bit_normalize bit :
  int_of_bit (normalize_bit bit) = int_of_bit bit ∨
  ∃ n, int_of_bit bit = Ok (S n) ∧ int_of_bit (normalize_bit bit) = Ok 1.
Proof.
  unfold normalize_bit. case_decide as Hd; [|by left]. right.
  unfold int_of_bit. rewrite decide_True by lia.
  exists (nat_of_ascii bit - 49). split; [f_equal; lia|done].
Qed.

Lemma decode_step_normalize tree node decoded bit :
  decode_step tree node decoded (normalize_bit bit)
  = decode_step tree node decoded bit.
Proof.
  unfold decode_step.
  destruct (int_of_bit_normalize bit) as [->|(n & -> & ->)]; done.
Qed.
End decoder_run.



(** X12.  The decoder goes right on every digit other than '0': writing '1' for
    the digits '2' to '9' changes nothing, whatever the tree. *)
Theorem nonzero_digit_is_right_bit (data : string)
    (tree : option HuffmanNode) :
  huffman_decoding (normalize_bits data) tree = huffman_decoding data tree.
Proof.
  destruct tree as [t|]; simpl.
  - generalize t at 2 4. generalize "" at 1 2.
    induction data as [|bit data IH]; intros decoded node; simpl; [done|].
    rewrite decode_step_normalize.
    destruct (decode_step t node decoded bit) as [[node' decoded']|e];
      simpl; [apply IH|done].
  - destruct data as [|bit data]; [done|]. simpl.
    by destruct (int_of_bit_normalize bit) as [->|(n & -> & ->)].
Qed.

(** X13.  Among the characters of the model, the 256 code points below
    U+0100, one that is not '0' to '9' makes the decoder raise [ValueError]
    when it reaches it.  (The decimal digits of other scripts, which
    [int] converts too, all lie above this range.) *)
Theorem non_digit_raises_ValueError (pre post out : string) (c : ascii)
    (tree : option HuffmanNode) :
  huffman_decoding pre tree = Ok out → ¬ is_digit c →
  huffman_decoding (pre +:+ String c post) tree = Raise ValueError.
Proof.
  intros Hpre Hc.
  assert (int_of_bit c = Raise ValueError) as Hint.
  { unfold int_of_bit. by rewrite decide_False. }
  destruct tree as [t|]; simpl in *.
  - apply decode_loop_Ok_run in Hpre as [node' Hrun].
    rewrite decode_loop_run, decode_run_app, Hrun. simpl.
    unfold decode_step. by rewrite Hint.
  - destruct pre as [|bit pre]; [simpl; by rewrite Hint|].
    by destruct (int_of_bit bit).
Qed.

Lemma non_digit_raises_ValueError_witness :
  huffman_decoding ("01" +:+ String "x" "10")
    (Some (Node 2 None (Some (new_node 1 (Some "a"%char)))
                       (Some (new_node 1 (Some "b"%char)))))
  = Raise ValueError.
Proof.
  apply (non_digit_raises_ValueError "01" "10" "ab" "x").
  - vm_compute. reflexivity.
  - unfold is_digit. vm_compute. lia.
Defined.

(** ** Bits that end in the middle of a code *)

Section partial_code.
Implicit Types (t root : HuffmanNode) (data bits decoded p q : string).
Implicit Types (tbl : gmap (option ascii) string).

Lemma decode_run_path t :
  full t → ∀ root c p decoded,
  is_internal t → (Some c, p) ∈ leaf_codes t "" →
  decode_run root t decoded p = Ok (root, decoded +:+ str1 c).
Proof.
  induction 1 as [f ch|f ch l r Hl Hr IHl IHr] using full_ind;
    intros root c p decoded Hint Hin.
  { by destruct Hint as [[? [=]] _]. }
  simpl in Hin.
  change ("" +:+ "0") with "0" in Hin. change ("" +:+ "1") with "1" in Hin.
  rewrite (leaf_codes_add l), (leaf_codes_add r) in Hin by done.
  apply elem_of_app in Hin as [Hin|Hin];
    apply list_elem_of_fmap in Hin as ([k p'] & [= <- ->] & Hin);
    rewrite string_app_cons; simpl.
  - destruct l as [fl cl [ll|] [lr|]]; simpl in *; try done.
    + apply (IHl root c p' decoded); [|done]. split; eauto.
    + apply list_elem_of_singleton in Hin as [= <- ->]. done.
  - destruct r as [fr cr [rl|] [rr|]]; simpl in *; try done.
    + apply (IHr root c p' decoded); [|done]. split; eauto.
    + apply list_elem_of_singleton in Hin as [= <- ->]. done.
Qed.

(** A proper prefix of a code leads to a node inside the tree and emits
    nothing. *)
Lemma decode_run_partial t :
  full t → ∀ root k p q decoded,
  is_internal t → (k, p +:+ q) ∈ leaf_codes t "" → q ≠ "" →
  ∃ node, decode_run root t decoded p = Ok (node, decoded).
Proof.
  induction 1 as [f ch|f ch l r Hl Hr IHl IHr] using full_ind;
    intros root k p q decoded Hint Hin Hq.
  { by destruct Hint as [[? [=]] _]. }
  destruct p as [|bit p]; [simpl; eauto|].
  simpl in Hin.
  change ("" +:+ "0") with "0" in Hin. change ("" +:+ "1") with "1" in Hin.
  rewrite (leaf_codes_add l), (leaf_codes_add r) in Hin by done.
  apply elem_of_app in Hin as [Hin|Hin];
    apply list_elem_of_fmap in Hin as ([k' p'] & Heq & Hin);
    unfold add_code in Heq; rewrite !string_app_cons in Heq;
    simpl in Heq; injection Heq as Hk Hbit Hp;
    change ("" +:+ p') with p' in Hp; subst k' bit p'; simpl.
  - destruct l as [fl cl [ll|] [lr|]]; simpl in *; try done.
    + apply (IHl root k p q decoded); [split; eauto|done..].
    + apply list_elem_of_singleton in Hin as [= _ Hpq].
      by destruct p, q.
  - destruct r as [fr cr [rl|] [rr|]]; simpl in *; try done.
    + apply (IHr root k p q decoded); [split; eauto|done..].
    + apply list_elem_of_singleton in Hin as [= _ Hpq].
      by destruct p, q.
Qed.

Lemma decode_run_encoded t tbl data :
  full t → is_internal t →
  (∀ c p, tbl !! Some c = Some p → (Some c, p) ∈ leaf_codes t "") →
  ∀ encoding enc, encode_chars data tbl encoding = Ok enc →
  ∃ bits, enc = encoding +:+ bits ∧
    ∀ decoded, decode_run t t decoded bits = Ok (t, decoded +:+ data).
Proof.
  intros Hfull Hint Htbl.
  induction data as [|c data IH]; intros encoding enc; simpl.
  - intros [= <-]. exists "". split; [by rewrite string_app_nil_r|].
    intros decoded. simpl. by rewrite string_app_nil_r.
  - destruct (tbl !! Some c) as [code|] eqn:Hcode; [|done].
    intros (bits & -> & Hdec)%IH.
    exists (code +:+ bits). split; [by rewrite string_app_assoc|].
    intros decoded. rewrite decode_run_app.
    rewrite (decode_run_path t Hfull t c) by auto. simpl.
    rewrite Hdec. by rewrite string_app_assoc.
Qed.
End partial_code.

(** X14.  Bits left over after the last complete code, as long as they are the
    beginning of some code, are dropped without an error: the decoder
    returns the input all the same. *)
Theorem trailing_partial_code_is_dropped (data bits p q : string)
    (t : HuffmanNode) (k : option ascii) :
  huffman_encoding data = Ok (bits, Some t) →
  map_codes t "" ∅ !! k = Some (p +:+ q) → q ≠ "" →
  huffman_decoding (bits +:+ p) (Some t) = Ok data.
Proof.
  intros [(_ & _ & [=])|(Hne & t' & [= <-] & Hbuild & Henc)]
    %huffman_encoding_Ok.
  intros Hcode%(built_table_lookup data) Hq; [|done].
  pose proof (built_tree_facts _ _ Hbuild) as (Hfull & _ & Hint & _).
  destruct (decode_run_encoded t (map_codes t "" ∅) data Hfull Hint)
    with (encoding := "") (enc := bits) as (bits' & -> & Hdec); [|done|].
  { intros c p'. by rewrite (built_table_lookup data). }
  simpl. rewrite decode_loop_run, decode_run_app, Hdec. simpl.
  destruct (decode_run_partial t Hfull t k p q ("" +:+ data) Hint Hcode Hq)
    as [node ->].
  done.
Qed.

Lemma trailing_partial_code_is_dropped_witness :
  ∃ bits t,
    huffman_decoding (bits +:+ "110") (Some t) = Ok "ABRACADABRA".
Proof.
  eexists _, _.
  apply (trailing_partial_code_is_dropped "ABRACADABRA" _ "110" "0" _
           (Some "C"%char)); [vm_compute; reflexivity| |discriminate].
  vm_compute. reflexivity.
Defined.

(** ** The dummy leaf *)

(** X15.  With the tree of an input made of one symbol, a "0" leads to the dummy
    leaf, whose symbol is [None]: decoding a bit string that contains a "0"
    raises [TypeError]. *)
Theorem dummy_leaf_raises_TypeError (data enc bits : string) (c : ascii)
    (t : HuffmanNode) :
  (∀ x, x ∈ chars data → x = c) →
  huffman_encoding data = Ok (enc, Some t) →
  bits01 bits = true → "0"%char ∈ chars bits →
  huffman_decoding bits (Some t) = Raise TypeError.
Proof.
  intros Hall
    [(_ & _ & [=])|(Hne & t' & [= <-] & Hbuild & _)]%huffman_encoding_Ok
    Hbits Hzero.
  rewrite (map_frequency_single data c) in Hbuild by done.
  rewrite build_tree_single in Hbuild by (destruct data; [done|simpl; lia]).
  injection Hbuild as <-. simpl.
  generalize "" at 1. induction bits as [|bit bits IH]; intros decoded.
  { by apply elem_of_nil in Hzero. }
  simpl in Hbits. apply andb_prop in Hbits as [Hbit Hbits].
  apply orb_prop in Hbit. rewrite !bool_decide_eq_true in Hbit.
  simpl. destruct Hbit as [-> | ->].
  - by rewrite decode_step_0.
  - rewrite decode_step_1. simpl. apply IH; [done|].
    simpl in Hzero. by apply elem_of_cons in Hzero as [[=]|?].
Qed.

Lemma dummy_leaf_raises_TypeError_witness :
  ∃ t, huffman_decoding "1101" (Some t) = Raise TypeError.
Proof.
  eexists.
  eapply (dummy_leaf_raises_TypeError "aaaaaa" _ "1101" "a");
    [|vm_compute; reflexivity|reflexivity|].
  - intros x Hx. simpl in Hx. set_solver.
  - simpl. set_solver.
Defined.

(** ** map_codes on any tree and any dict *)

Lemma prefix_nil (s : string) : String.prefix "" s = true.
Proof. by destruct s. Qed.

Lemma prefix_app_l (code s q : string) :
  String.prefix (code +:+ s) q = true → String.prefix code q = true.
Proof.
  revert q. induction code as [|a code IH]; intros q; [by rewrite prefix_nil|].
  destruct q as [|b q]; rewrite string_app_cons; [done|].
  rewrite !prefix_cons. case_decide; [apply IH|done].
Qed.

(** Induction over all nodes, whatever children they have. *)
Lemma HuffmanNode_opt_ind (P : HuffmanNode → Prop) :
  (∀ f c l r,
     from_option P True l → from_option P True r → P (Node f c l r)) →
  ∀ t, P t.
Proof.
  intros H. fix IH 1. intros [f c l r].
  apply H; [destruct l as [l'|]|destruct r as [r'|]]; simpl;
    (apply IH || exact I).
Qed.

(** X16.  [map_codes] only adds to the dict it is given: a key that was there
    stays, whatever the node and its children. *)
Theorem map_codes_keeps_keys (node : HuffmanNode) (code : string)
    (map : gmap (option ascii) string) (k : option ascii) :
  is_Some (map !! k) → is_Some (map_codes node code map !! k).
Proof.
  revert code map.
  induction node as [f c l r IHl IHr] using HuffmanNode_opt_ind.
  intros code map Hk. simpl.
  assert (∀ m : gmap (option ascii) string,
            is_Some (m !! k) → is_Some (<[c:=code]> m !! k)) as Hins.
  { intros m ?. rewrite lookup_insert_is_Some.
    destruct (decide (c = k)); auto. }
  destruct l as [l'|], r as [r'|]; simpl in *; auto.
Qed.

Lemma map_codes_keeps_keys_witness :
  is_Some (map_codes (new_node 1 (Some "a"%char)) "01"
             (<[None:="0"]> ∅) !! None).
Proof.
  apply map_codes_keeps_keys. rewrite lookup_insert_eq. by eexists.
Defined.

(** X17.  Every code [map_codes] writes starts with the [code] it was called
    with: an entry of the result was in the dict before or has [code] as a
    prefix. *)
Theorem map_codes_writes_extensions (node : HuffmanNode) (code p : string)
    (map : gmap (option ascii) string) (k : option ascii) :
  map_codes node code map !! k = Some p →
  map !! k = Some p ∨ String.prefix code p = true.
Proof.
  revert code map.
  induction node as [f c l r IHl IHr] using HuffmanNode_opt_ind.
  intros code map. simpl.
  assert (∀ m : gmap (option ascii) string,
            <[c:=code]> m !! k = Some p →
            m !! k = Some p ∨ String.prefix code p = true) as Hins.
  { intros m. destruct (decide (c = k)) as [->|].
    - rewrite lookup_insert_eq. intros [= <-]. right. apply prefix_refl.
    - rewrite lookup_insert_ne by done. auto. }
  destruct l as [l'|], r as [r'|]; simpl in *.
  - intros [[?|?]%IHl|?]%IHr; eauto using prefix_app_l.
  - intros [[?|?]%IHl|?]%Hins; eauto using prefix_app_l.
  - intros [[?|?]%Hins|?]%IHr; eauto using prefix_app_l.
  - intros [[?|?]%Hins|?]%Hins; eauto.
Qed.

Lemma map_codes_writes_extensions_witness :
  (∅ : gmap (option ascii) string) !! Some "a"%char = Some "01" ∨
  String.prefix "01" "01" = true.
Proof.
  apply (map_codes_writes_extensions (new_node 1 (Some "a"%char)) "01" "01"
           ∅ (Some "a"%char)).
  simpl. by rewrite lookup_insert_eq.
Defined.


(** ** The heap order *)

Lemma child_parent (pos : nat) : 0 < pos → child (Nat.div2 (pos - 1)) pos.
Proof.
  intros Hpos. unfold child. rewrite Nat.div2_div.
  pose proof (Nat.div_mod_eq (pos - 1) 2) as Hdiv.
  pose proof (Nat.mod_upper_bound (pos - 1) 2). lia.
Qed.

(** [le] is an order that [lt] decides whenever it returns. *)
Section heap_order.
Import heapq.
Context {A : Type} (lt : A → A → res bool).
Context (le : A → A → Prop) `{!PreOrder le}.
Context (lt_true : ∀ a b, lt a b = Ok true → le a b).
Context (lt_false : ∀ a b, lt a b = Ok false → le b a).
Implicit Types (heap h : list A) (item newitem : A).

Lemma heap_ordered_insert heap pos newitem parentpos parent :
  pos < length heap →
  ordered_except le heap pos →
  (∀ j b, child pos j → heap !! j = Some b → le newitem b) →
  (pos ≠ 0 → child parentpos pos ∧ heap !! parentpos = Some parent ∧
             le parent newitem) →
  heap_ordered le (<[pos:=newitem]> heap).
Proof.
  intros Hpos Hexc Hbelow Habove i j a b Hij Hi Hj.
  destruct (decide (j = pos)) as [->|Hjp].
  - rewrite list_lookup_insert_eq in Hj by done. injection Hj as <-.
    destruct Habove as (Hpar & Hparent & Hle);
      [unfold child in Hij; lia|].
    assert (i = parentpos) as -> by (unfold child in *; lia).
    rewrite list_lookup_insert_ne in Hi by (unfold child in *; lia).
    by simplify_eq.
  - rewrite list_lookup_insert_ne in Hj by done.
    destruct (decide (i = pos)) as [->|Hip].
    + rewrite list_lookup_insert_eq in Hi by done. injection Hi as <-.
      eauto.
    + rewrite list_lookup_insert_ne in Hi by done. eauto.
Qed.

Lemma siftdown_loop_ordered fuel heap pos newitem h :
  siftdown_loop lt fuel heap 0 pos newitem = Ok h →
  pos < length heap →
  ordered_except le heap pos →
  (∀ j b, child pos j → heap !! j = Some b → le newitem b) →
  hole_bridged le heap pos →
  heap_ordered le h.
Proof.
  revert heap pos.
  induction fuel as [|fuel IH]; intros heap pos H Hpos Hexc Hbelow Hbridge;
    simpl in H; case_decide as Hlt; try done.
  - apply setitem_Ok in H as [_ ->].
    eapply (heap_ordered_insert _ _ _ 0 newitem); eauto. lia.
  - apply bind_Ok in H as (parent & Hparent%getitem_Ok & H).
    apply bind_Ok in H as (b & Hcmp & H).
    pose proof (child_parent pos Hlt) as Hpar.
    set (pp := Nat.div2 (pos - 1)) in *.
    assert (pp < pos) as Hpp by (unfold child in Hpar; lia).
    destruct b.
    + apply lt_true in Hcmp.
      apply bind_Ok in H as (heap1 & [_ ->]%setitem_Ok & H).
      apply IH in H; [done|rewrite length_insert; lia|..].
      * intros i j a b Hij Hi Hj Ha Hb.
        assert (j ≠ pos).
        { intros ->. apply Hi. unfold child in *. lia. }
        rewrite list_lookup_insert_ne in Hb by done.
        destruct (decide (i = pos)) as [->|Hip].
        -- rewrite list_lookup_insert_eq in Ha by done. injection Ha as <-.
           by eapply (Hbridge pp j).
        -- rewrite list_lookup_insert_ne in Ha by done. eauto.
      * intros j b Hj Hb.
        destruct (decide (j = pos)) as [->|Hjp].
        -- rewrite list_lookup_insert_eq in Hb by done. by injection Hb as <-.
        -- rewrite list_lookup_insert_ne in Hb by done.
           etrans; [exact Hcmp|]. eapply (Hexc pp j); eauto. lia.
      * intros i j a b Hi Hj Ha Hb.
        rewrite list_lookup_insert_ne in Ha by (unfold child in *; lia).
        assert (le a parent) as Hap.
        { eapply (Hexc i pp); eauto; unfold child in *; lia. }
        destruct (decide (j = pos)) as [->|Hjp].
        -- rewrite list_lookup_insert_eq in Hb by done. by injection Hb as <-.
        -- rewrite list_lookup_insert_ne in Hb by done.
           etrans; [exact Hap|]. eapply (Hexc pp j); eauto. lia.
    + apply lt_false in Hcmp. apply setitem_Ok in H as [_ ->].
      eapply (heap_ordered_insert _ _ _ pp parent); eauto.
  - apply setitem_Ok in H as [_ ->].
    eapply (heap_ordered_insert _ _ _ 0 newitem); eauto. lia.
Qed.

Lemma heappush_ordered heap item h :
  heap_ordered le heap → heappush lt heap item = Ok h →
  heap_ordered le h.
Proof.
  intros Hord H. unfold heappush, _siftdown in H.
  rewrite length_app in H. simpl in H.
  replace (length heap + 1 - 1) with (length heap) in H by lia.
  apply bind_Ok in H as (newitem & Hnew%getitem_Ok & H).
  apply siftdown_loop_ordered in H; [done|rewrite length_app; simpl; lia|..].
  - intros i j a b Hij Hi Hj Ha Hb.
    assert (j < length heap).
    { apply lookup_lt_Some in Hb. rewrite length_app in Hb. simpl in Hb.
      lia. }
    rewrite lookup_app_l in Ha, Hb by (unfold child in *; lia). eauto.
  - intros j b Hj Hb. apply lookup_lt_Some in Hb.
    rewrite length_app in Hb. simpl in Hb. unfold child in Hj. lia.
  - intros i j a b _ Hj _ Hb. apply lookup_lt_Some in Hb.
    rewrite length_app in Hb. simpl in Hb. unfold child in Hj. lia.
Qed.

Lemma siftup_loop_ordered fuel heap endpos pos h pos' :
  siftup_loop lt fuel heap endpos pos = Ok (h, pos') →
  endpos = length heap → pos < length heap →
  ordered_except le heap pos → hole_bridged le heap pos →
  ordered_except le h pos' ∧ hole_bridged le h pos' ∧
  (∀ j, child pos' j → length h ≤ j) ∧ pos' < length h.
Proof.
  revert heap pos.
  induction fuel as [|fuel IH]; intros heap pos H Hend Hpos Hexc Hbridge;
    cbn -[Nat.mul] in H; case_decide as Hlt; try done;
    try by (simplify_eq; split_and!; [done..| |done];
            intros j Hj; unfold child in Hj; lia).
  apply bind_Ok in H as (cp & Hcp & H).
  apply bind_Ok in H as (c & Hc%getitem_Ok & H).
  apply bind_Ok in H as (heap1 & [_ ->]%setitem_Ok & H).
  assert (child pos cp ∧ cp < endpos ∧
          ∀ j b, child pos j → heap !! j = Some b → le c b)
    as (Hchild & Hcpend & Hmin).
  { case_decide as Hr.
    - apply bind_Ok in Hcp as (x & Hx%getitem_Ok & Hcp).
      apply bind_Ok in Hcp as (y & Hy%getitem_Ok & Hcp).
      apply bind_Ok in Hcp as ([] & Hcmp & [= <-]);
        change (pos + (pos + 0) + 1) with (2 * pos + 1) in *.
      + apply lt_true in Hcmp. split_and!; [by left|lia|].
        intros j b [-> | ->] Hb; simplify_eq; [reflexivity|].
        replace (2 * pos + 2) with (2 * pos + 1 + 1) in Hb by lia.
        by simplify_eq.
      + apply lt_false in Hcmp. split_and!; [right; lia|lia|].
        intros j b [-> | ->] Hb; simplify_eq; [done|].
        replace (2 * pos + 2) with (2 * pos + 1 + 1) in Hb by lia.
        simplify_eq. reflexivity.
    - injection Hcp as <-.
      change (pos + (pos + 0) + 1) with (2 * pos + 1) in *.
      split_and!; [by left|lia|].
      intros j b [-> | ->] Hb; simplify_eq; [reflexivity|].
      apply lookup_lt_Some in Hb. lia. }
  assert (pos < cp) as Hposcp by (unfold child in Hchild; lia).
  apply IH in H;
    [done|by rewrite length_insert|rewrite length_insert; lia|..].
  - intros i j a b Hij Hi Hj Ha Hb.
    destruct (decide (j = pos)) as [->|Hjp].
    + rewrite list_lookup_insert_eq in Hb by done. injection Hb as <-.
      rewrite list_lookup_insert_ne in Ha by (unfold child in *; lia).
      by eapply (Hbridge i cp).
    + rewrite list_lookup_insert_ne in Hb by done.
      destruct (decide (i = pos)) as [->|Hip].
      * rewrite list_lookup_insert_eq in Ha by done. injection Ha as <-.
        eauto.
      * rewrite list_lookup_insert_ne in Ha by done. eauto.
  - intros i j a b Hi Hj Ha Hb.
    assert (i = pos) as -> by (unfold child in *; lia).
    rewrite list_lookup_insert_eq in Ha by done. injection Ha as <-.
    rewrite list_lookup_insert_ne in Hb by (unfold child in *; lia).
    eapply (Hexc cp j); eauto; unfold child in *; lia.
Qed.

Lemma siftup_ordered heap h :
  _siftup lt heap 0 = Ok h → ordered_except le heap 0 →
  heap_ordered le h.
Proof.
  unfold _siftup. intros H Hexc.
  apply bind_Ok in H as (newitem & Hnew%getitem_Ok & H).
  apply bind_Ok in H as ([h1 pos1] & Hloop & H).
  apply bind_Ok in H as (h2 & [_ ->]%setitem_Ok & H).
  apply siftup_loop_ordered in Hloop
    as (Hexc1 & _ & Hleaf & Hpos1);
    [|done|by eapply lookup_lt_Some|done|].
  2:{ intros i j a b Hi. unfold child in Hi. lia. }
  unfold _siftdown in H.
  apply bind_Ok in H as (newitem' & _ & H).
  apply siftdown_loop_ordered in H; [done|by rewrite length_insert|..].
  - intros i j a b Hij Hi Hj Ha Hb.
    rewrite list_lookup_insert_ne in Ha, Hb by done. eauto.
  - intros j b Hj Hb. apply lookup_lt_Some in Hb.
    rewrite length_insert in Hb. apply Hleaf in Hj. lia.
  - intros i j a b _ Hj _ Hb. apply lookup_lt_Some in Hb.
    rewrite length_insert in Hb. apply Hleaf in Hj. lia.
Qed.

(** The item at the root is not above any item of the heap. *)
Lemma heap_ordered_root heap x :
  heap_ordered le heap → heap !! 0 = Some x →
  ∀ j y, heap !! j = Some y → le x y.
Proof.
  intros Hord Hx j. induction (lt_wf j) as [j _ IH]. intros y Hy.
  destruct (decide (j = 0)) as [->|Hj]; [by simplify_eq|].
  pose proof (child_parent j ltac:(lia)) as Hpar.
  destruct (lookup_lt_is_Some_2 heap (Nat.div2 (j - 1))) as [z Hz].
  { apply lookup_lt_Some in Hy. unfold child in Hpar. lia. }
  etrans; [apply (IH (Nat.div2 (j - 1)))|by eapply Hord].
  - unfold child in Hpar. lia.
  - done.
Qed.

Lemma heap_ordered_init heap x :
  heap_ordered le (heap ++ [x]) → heap_ordered le heap.
Proof.
  intros Hord i j a b Hij Ha Hb.
  eapply Hord; [done|by apply lookup_app_l_Some..].
Qed.

Lemma heappop_ordered heap item h :
  heap_ordered le heap → heappop lt heap = Ok (item, h) →
  heap_ordered le h ∧ ∀ y, y ∈ h → le item y.
Proof.
  intros Hord H.
  assert (∀ y, y ∈ h → y ∈ heap) as Hsub.
  { intros y ?. apply heappop_perm in H. rewrite H. by right. }
  unfold heappop in H.
  rewrite <-(reverse_involutive heap) in Hord, Hsub.
  destruct (reverse heap) as [|lastelt rest]; [done|].
  rewrite reverse_cons in Hord, Hsub.
  destruct (reverse rest) as [|returnitem rest'].
  - injection H as <- <-. split; [done|]. by intros y ?%elem_of_nil.
  - apply bind_Ok in H as (h1 & [_ ->]%setitem_Ok & H).
    apply bind_Ok in H as (h2 & Hup & [= <- <-]).
    split.
    + apply siftup_ordered in Hup; [done|].
      apply heap_ordered_init in Hord.
      intros i j a b Hij Hi Hj Ha Hb.
      rewrite list_lookup_insert_ne in Ha, Hb by done. eauto.
    + intros y [j Hy]%Hsub%list_elem_of_lookup.
      by eapply (heap_ordered_root _ returnitem Hord).
Qed.
End heap_order.

(** ** The queue of build_tree is a heap by weight *)

Global Instance lighter_preorder : PreOrder lighter.
Proof. split; unfold lighter; [intros ?|intros ???]; lia. Qed.

Lemma tuple_lt_true (a b : entry) : tuple_lt a b = Ok true → lighter a b.
Proof.
  unfold tuple_lt, lighter. case_decide as Heq; [lia|].
  intros [= ?%bool_decide_eq_true]. lia.
Qed.

Lemma tuple_lt_false (a b : entry) : tuple_lt a b = Ok false → lighter b a.
Proof.
  unfold tuple_lt, lighter. case_decide as Heq; [lia|].
  intros [= ?%bool_decide_eq_false]. lia.
Qed.

Section build_order.
Implicit Types (queue q : list entry) (e : entry) (t : HuffmanNode).

Lemma entry_heappush_ordered q e q' :
heap_ordered lighter q → heapq.heappush tuple_lt q e = Ok q' →
heap_ordered lighter q'.
Proof.
apply (heappush_ordered tuple_lt lighter tuple_lt_true tuple_lt_false).
Qed.

Lemma entry_heappop_ordered q e q' :
heap_ordered lighter q → heapq.heappop tuple_lt q = Ok (e, q') →
heap_ordered lighter q' ∧ ∀ y, y ∈ q' → lighter e y.
Proof.
apply (heappop_ordered tuple_lt lighter tuple_lt_true tuple_lt_false).
Qed.

Lemma queue_state_ordered q : queue_state q → heap_ordered lighter q.
Proof.
induction 1 as [|q e q' _ IH Hpush|q e q' _ IH Hpop].
- intros i j a b _ Ha. by rewrite lookup_nil in Ha.
- by eapply entry_heappush_ordered.
- by eapply entry_heappop_ordered.
Qed.

Lemma put_all_state q frequencies q' :
queue_state q → put_all q frequencies = Ok q' → queue_state q'.
Proof.
revert q. induction frequencies as [|f rest IH]; intros q Hq; simpl.
- by intros [= <-].
- intros H. apply bind_Ok in H as (q1 & Hpush & H).
  eapply IH; [|done]. by eapply queue_put.
Qed.

Lemma merge_loop_lighter_left fuel q p3 q' :
merge_loop fuel q p3 = Ok q' →
queue_state q → Forall entry_lighter_left q →
Forall entry_lighter_left q'.
Proof.
revert q p3.
induction fuel as [|fuel IH]; intros q p3 H Hq Hok;
  (destruct (decide (1 < length q)) as [Hlen|Hlen];
   [|by rewrite merge_loop_done in H by lia; injection H as <-]);
  simpl in H; rewrite decide_True in H by done; [done|].
apply bind_Ok in H as ([[[lt_freq lt_char] lt_node] q1] & Hpop1 & H).
apply bind_Ok in H as ([[[rt_freq rt_char] rt_node] q2] & Hpop2 & H).
apply bind_Ok in H as (q3 & Hpush & H).
pose proof (queue_get _ _ _ Hq Hpop1) as Hq1.
pose proof (queue_get _ _ _ Hq1 Hpop2) as Hq2.
pose proof (queue_put _ _ _ Hq2 Hpush) as Hq3.
apply (IH _ _ H Hq3).
apply queue_state_ordered in Hq.
destruct (entry_heappop_ordered _ _ _ Hq Hpop1) as [_ Hleast].
pose proof (heappop_perm _ _ _ _ Hpop1) as Hp1.
pose proof (heappop_perm _ _ _ _ Hpop2) as Hp2.
pose proof (heappush_perm _ _ _ _ Hpush) as Hp3.
assert (lt_freq ≤ rt_freq) as Hle.
{ apply (Hleast (rt_freq, rt_char, rt_node)). rewrite Hp2. left. }
rewrite Hp1, Hp2 in Hok.
apply Forall_cons in Hok as [[Hfa Hla] Hok].
apply Forall_cons in Hok as [[Hfb Hlb] Hok].
rewrite Hp3. constructor; [|done].
unfold entry_lighter_left, e_freq in *. simpl in *.
split_and!; [by subst|lia|done..].
Qed.

Lemma build_tree_lighter_left frequencies t :
build_tree frequencies = Ok (Some t) →
Forall entry_lighter_left frequencies → lighter_left t.
Proof.
unfold build_tree. case_decide as Hlen0; [done|].
intros H Hok.
apply bind_Ok in H as (q0 & Hput & H).
apply bind_Ok in H as (q1 & Hloop & H).
apply bind_Ok in H as ([root rest] & Hpop%heappop_perm & [= <-]).
apply merge_loop_lighter_left in Hloop.
- rewrite Hpop in Hloop. by apply Forall_cons in Hloop as [[_ ?] _].
- eapply put_all_state; [constructor|done].
- apply put_all_perm in Hput. by rewrite Hput, app_nil_r.
Qed.

Lemma map_frequency_lighter_left data :
Forall entry_lighter_left (map_frequency data).
Proof.
destruct data as [|c rest]; [constructor|].
unfold map_frequency. apply Forall_app. split.
- case_decide; by repeat constructor.
- apply Forall_fmap, Forall_true. by intros [c' n].
Qed.
End build_order.

(** ** The queue and the shape of the tree *)

(** X18.  A queue that [put] and [get] alone have made of the empty queue
    hands out an entry of least weight: no entry left in the queue weighs
    less than the one [get] returns. *)
Theorem get_returns_least_weight (queue queue' : list entry) (e : entry) :
  queue_state queue → heapq.heappop tuple_lt queue = Ok (e, queue') →
  ∀ e', e' ∈ queue' → e_freq e ≤ e_freq e'.
Proof.
  intros Hq%queue_state_ordered Hpop.
  by destruct (entry_heappop_ordered _ _ _ Hq Hpop).
Qed.

Lemma get_returns_least_weight_witness :
  Forall (λ e', e_freq (leaf_entry ("b"%char, 1)) ≤ e_freq e')
    [leaf_entry ("n"%char, 2); leaf_entry ("a"%char, 3)].
Proof.
  apply Forall_forall.
  eapply (get_returns_least_weight
            [leaf_entry ("b"%char, 1); leaf_entry ("a"%char, 3);
             leaf_entry ("n"%char, 2)]).
  - eapply (put_all_state [] (map_frequency "banana")); [apply queue_new|].
    vm_compute. reflexivity.
  - vm_compute. reflexivity.
Defined.

(** X19.  In every tree returned by [huffman_encoding], the left child of a
    node with two children weighs no more than the right child: [build_tree]
    hangs the entry it got first on the left. *)
Theorem left_child_is_lighter (data bits : string) (t : HuffmanNode) :
  huffman_encoding data = Ok (bits, Some t) → lighter_left t.
Proof.
  intros [(_ & _ & [=])|(Hne & t' & [= <-] & Hbuild & _)]%huffman_encoding_Ok.
  eapply build_tree_lighter_left; [done|].
  apply map_frequency_lighter_left.
Qed.

Lemma left_child_is_lighter_witness : ∃ t, lighter_left t.
Proof.
  eexists. eapply (left_child_is_lighter "Mississippi").
  vm_compute. reflexivity.
Defined.


(** ** The weights of the leaves *)

Global Instance queue_leaf_weights_perm :
  Proper ((≡ₚ) ==> (≡ₚ)) queue_leaf_weights.
Proof. intros q1 q2 Hq. unfold queue_leaf_weights. by rewrite Hq. Qed.

Section leaf_weights.
Implicit Types (queue q : list entry) (e : entry) (t : HuffmanNode).

Lemma merge_loop_leaf_weights fuel q p3 q' :
merge_loop fuel q p3 = Ok q' →
queue_leaf_weights q' ≡ₚ queue_leaf_weights q.
Proof.
revert q p3.
induction fuel as [|fuel IH]; intros q p3 H;
  (destruct (decide (1 < length q)) as [Hlen|Hlen];
   [|by rewrite merge_loop_done in H by lia; injection H as <-]);
  simpl in H; rewrite decide_True in H by done; [done|].
apply bind_Ok in H as ([[[fa ta] na] q1] & Hpop1%heappop_perm & H).
apply bind_Ok in H as ([[[fb tb] nb] q2] & Hpop2%heappop_perm & H).
apply bind_Ok in H as (q3 & Hpush%heappush_perm & H).
apply IH in H. rewrite H, Hpush, Hpop1, Hpop2.
unfold queue_leaf_weights. csimpl. by rewrite (assoc_L (++)).
Qed.

Lemma build_tree_leaf_weights frequencies t :
build_tree frequencies = Ok (Some t) →
leaf_weights t ≡ₚ queue_leaf_weights frequencies.
Proof.
unfold build_tree. case_decide as Hlen0; [done|].
intros H.
apply bind_Ok in H as (q0 & Hput%put_all_perm & H).
apply bind_Ok in H as (q1 & Hloop & H).
apply bind_Ok in H as ([root rest] & Hpop%heappop_perm & [= <-]).
rewrite app_nil_r in Hput.
pose proof (merge_loop_length _ _ _ _ Hloop) as Hlen1.
rewrite Hput in Hlen1. specialize (Hlen1 ltac:(lia)).
apply merge_loop_leaf_weights in Hloop.
rewrite Hput, Hpop in Hloop. rewrite Hpop in Hlen1.
destruct rest; [|done].
rewrite <-Hloop. unfold queue_leaf_weights. csimpl. by rewrite app_nil_r.
Qed.

Lemma map_frequency_leaf_weights data :
data ≠ "" →
queue_leaf_weights (map_frequency data)
= (if decide (length (distinct (chars data)) = 1)
   then [(None, 0)] else [])
  ++ ((λ c, (Some c, occurrences c data)) <$> distinct (chars data)).
Proof.
intros Hne. rewrite map_frequency_unfold by done.
rewrite count_chars_distinct, length_fmap.
unfold queue_leaf_weights. rewrite bind_app. f_equal.
- by case_decide.
- induction (distinct (chars data)) as [|c l IH]; csimpl; [done|].
  by rewrite IH.
Qed.
End leaf_weights.

(** X20.  In the tree [huffman_encoding] returns, the leaf of a symbol carries
    the number of occurrences of the symbol in the input, and the dummy
    leaf, there when the input has one distinct symbol, carries 0. *)
Theorem leaf_weights_are_counts (data bits : string) (t : HuffmanNode) :
  huffman_encoding data = Ok (bits, Some t) →
  leaf_weights t ≡ₚ
    (if decide (length (distinct (chars data)) = 1)
     then [(None, 0)] else [])
    ++ ((λ c, (Some c, occurrences c data)) <$> distinct (chars data)).
Proof.
  intros [(_ & _ & [=])|(Hne & t' & [= <-] & Hbuild & _)]
    %huffman_encoding_Ok.
  apply build_tree_leaf_weights in Hbuild.
  by rewrite Hbuild, map_frequency_leaf_weights.
Qed.

Lemma leaf_weights_are_counts_witness :
  ∃ t, leaf_weights t ≡ₚ
    (if decide (length (distinct (chars "Mississippi")) = 1)
     then [(None, 0)] else [])
    ++ ((λ c, (Some c, occurrences c "Mississippi"))
          <$> distinct (chars "Mississippi")).
Proof.
  eexists. eapply (leaf_weights_are_counts "Mississippi").
  vm_compute. reflexivity.
Defined.

(** X21.  The root of the tree [huffman_encoding] returns carries the length
    of the input. *)
Theorem root_weight_is_length (data bits : string) (t : HuffmanNode) :
  huffman_encoding data = Ok (bits, Some t) →
  freq t = String.length data.
Proof.
  intros [(_ & _ & [=])|(Hne & t' & [= <-] & Hbuild & _)]
    %huffman_encoding_Ok.
  by apply built_tree_facts in Hbuild as (_ & _ & _ & _ & _ & ?).
Qed.

Lemma root_weight_is_length_witness :
  ∃ t, freq t = String.length "Mississippi".
Proof.
  eexists. eapply (root_weight_is_length "Mississippi").
  vm_compute. reflexivity.
Defined.

